(** * Stammering detection: a shallow embedding of
      [services/stammering_service.py] and the properties of its detector.

    The file has three parts: the embedding of the Python code, the
    notions in which its properties are stated, and the properties.

    Python values are modelled as follows.
    - [int] is [Z]; [len] returns a [Z].
    - [str] is the list of its Unicode code points ([N]).
    - a list or a tuple is a [list]; an n-gram is the list of its tokens.
    - an operation that can raise ([max] of an empty sequence, indexing)
      returns a [result], and the methods that use one live in that monad.
    - the character database behind [str.lower], [str.upper], [str.isalnum]
      and [str.split] is not part of the repository: it is the parameter
      [CharDB] of the whole development, and [latin1] is an instance of it
      used to run the detector on concrete sentences. *)

From Stdlib Require Import ZArith QArith Lia String Ascii.
From stdpp Require Import base tactics numbers option list list_numbers.

Local Open Scope Z_scope.
Set Warnings "-clear-no-such-hyp".

(** ** Exceptions *)

Inductive exn : Type := IndexError | ValueError.

Inductive result (A : Type) : Type :=
| Ok (a : A)
| Raise (e : exn).
Arguments Ok {A} a.
Arguments Raise {A} e.

#[global] Instance result_ret : MRet result := fun A a => Ok a.
#[global] Instance result_bind : MBind result := fun A B f m =>
  match m with
  | Ok a => f a
  | Raise e => Raise e
  end.

(** ** Python built-ins *)

Module Py.

Definition len {A} (l : list A) : Z := Z.of_nat (length l).

(** [range(start, stop)] *)
Definition range (start stop : Z) : list Z := seqZ start (stop - start).

(** A slice bound is taken from the end when negative, then clamped. *)
Definition clamp {A} (l : list A) (i : Z) : Z :=
  let i := if i <? 0 then i + len l else i in
  Z.max 0 (Z.min (len l) i).

(** [l[lo:hi]] *)
Definition slice {A} (l : list A) (lo hi : Z) : list A :=
  let a := clamp l lo in
  let b := clamp l hi in
  take (Z.to_nat (b - a)) (drop (Z.to_nat a) l).

(** [l[i]], which raises [IndexError] out of range. *)
Definition getitem {A} (l : list A) (i : Z) : result A :=
  let i := if i <? 0 then i + len l else i in
  if (0 <=? i) && (i <? len l) then
    match l !! Z.to_nat i with
    | Some x => Ok x
    | None => Raise IndexError
    end
  else Raise IndexError.

(** [max(l)], which raises [ValueError] on an empty sequence. *)
Definition max (l : list Z) : result Z :=
  match l with
  | [] => Raise ValueError
  | x :: l' => Ok (fold_left Z.max l' x)
  end.

(** [sum(l)] *)
Definition sum (l : list Z) : Z := fold_left Z.add l 0.

(** [set(l)], as the list of its distinct elements. *)
Definition set `{EqDecision A} (l : list A) : list A := remove_dups l.

(** A [for] loop whose body is [if <test>: return True], followed by
    [return False]: the tests run in order and the first success ends the
    loop. *)
Fixpoint for_return_true {A} (test : A → result bool) (l : list A)
  : result bool :=
  match l with
  | [] => Ok false
  | x :: l' => b ← test x; if b : bool then Ok true else for_return_true test l'
  end.

(** *** [collections.Counter] *)

(** A [Counter] is a dict: keys in insertion order, each with its count.
    [incr k d] is [d[k] = d.get(k, 0) + 1]. *)
Fixpoint incr `{EqDecision K} (k : K) (d : list (K * Z)) : list (K * Z) :=
  match d with
  | [] => [(k, 1)]
  | (k', c) :: d' =>
      if decide (k = k') then (k', c + 1) :: d' else (k', c) :: incr k d'
  end.

Definition Counter `{EqDecision K} (l : list K) : list (K * Z) :=
  fold_left (fun d k => incr k d) l [].

Definition items {K V} (d : list (K * V)) : list (K * V) := d.
Definition values {K V} (d : list (K * V)) : list V := d.*2.

(** [l[lo:]] *)
Definition slice_from {A} (l : list A) (lo : Z) : list A :=
  drop (Z.to_nat (clamp l lo)) l.

(** [c > m * 1.5] for two [int]s.  The product is a float; it is exact, and
    so is the comparison, for every [m] below 2^51, far above the number of
    tokens of a text that fits in memory. *)
Definition gt_times_1_5 (c m : Z) : bool := 3 * m <? 2 * c.

(** Truth value of a container: non-empty. *)
Definition truthy {A} (l : list A) : bool :=
  match l with [] => false | _ => true end.

End Py.

(** ** Strings *)

(** A code point. *)
Definition cp : Type := N.
Definition str : Type := list cp.

Definition newline : cp := 10%N.
Definition space : cp := 32%N.

(** The three sigmas: the capital one, U+03A3, is the one code point that
    [str.lower] maps according to its neighbours, to the final sigma U+03C2
    or to the small sigma U+03C3. *)
Definition capital_sigma : cp := 931%N.
Definition final_sigma : cp := 962%N.
Definition small_sigma : cp := 963%N.

(** The character database: what [str.lower] and [str.upper] map a code
    point to (possibly several code points), the classes tested by
    [str.isalnum] and by the whitespace split of [str.split], and the two
    classes that [str.lower] looks at around a capital sigma: the cased code
    points and the case-ignorable ones.  Four facts about Python's database
    are used by the proofs and are part of the interface: a line feed is not
    alphanumeric, and a space is whitespace, is not cased and is not
    case-ignorable. *)
Class CharDB : Type := {
  lower_char : cp → str;
  upper_char : cp → str;
  isalnum : cp → bool;
  isspace : cp → bool;
  cased : cp → bool;
  case_ignorable : cp → bool;
  isalnum_newline : isalnum newline = false;
  isspace_space : isspace space = true;
  cased_space : cased space = false;
  case_ignorable_space : case_ignorable space = false;
}.

Section Str.
Context `{DB : CharDB}.

(** Whether the first code point of [s] that is not case-ignorable is
    cased; [false] when there is none. *)
Fixpoint cased_next (s : str) : bool :=
  match s with
  | [] => false
  | c :: s' => if case_ignorable c then cased_next s' else cased c
  end.

(** What [str.lower] maps a capital sigma to: the final sigma when, the
    case-ignorable code points apart, a cased code point comes before it
    and none comes after it; the small sigma otherwise.  [before] holds the
    code points before it, the nearest first, [after] those after it. *)
Definition lower_sigma (before after : str) : cp :=
  if cased_next before && negb (cased_next after) then final_sigma
  else small_sigma.

(** [s.lower()], from the code points [before] already passed, the nearest
    first: each code point is mapped on its own, the capital sigma apart. *)
Fixpoint lower_from (before : str) (s : str) : str :=
  match s with
  | [] => []
  | c :: s' =>
      (if decide (c = capital_sigma) then [lower_sigma before s']
       else lower_char c)
      ++ lower_from (c :: before) s'
  end.

(** [s.lower()] and [s.upper()] *)
Definition lower (s : str) : str := lower_from [] s.
Definition upper (s : str) : str := flat_map upper_char s.

(** [s.split()]: the maximal runs of non-whitespace code points.  [tok] is
    the token being read. *)
Fixpoint split_from (tok : str) (s : str) : list str :=
  match s with
  | [] => if Py.truthy tok then [tok] else []
  | c :: s' =>
      if isspace c then
        if Py.truthy tok then tok :: split_from [] s' else split_from [] s'
      else split_from (tok ++ [c]) s'
  end.

Definition split (s : str) : list str := split_from [] s.

End Str.

(** [sep.join(l)] *)
Fixpoint join (sep : str) (l : list str) : str :=
  match l with
  | [] => []
  | [w] => w
  | w :: l' => w ++ sep ++ join sep l'
  end.

(** The length of the run of [x] that starts [l]. *)
Fixpoint lead `{EqDecision A} (x : A) (l : list A) : nat :=
  match l with
  | y :: l' => if decide (y = x) then S (lead x l') else O
  | [] => O
  end.

(** [re.finditer(r'(.)\1{2,}', s)], as the list of the matched substrings.
    The scan tries each position from the left.  At a position holding [c],
    [(.)] matches unless [c] is a line feed, and the greedy [\1{2,}] takes
    every following copy of [c] and needs two of them; the scan resumes
    after the match ([skip] counts the code points of the current match
    still to pass), or at the next position when there is no match. *)
Fixpoint finditer_elongation (skip : nat) (s : str) : list str :=
  match s with
  | [] => []
  | c :: s' =>
      match skip with
      | S k => finditer_elongation k s'
      | O =>
          let k := lead c s' in
          if negb (bool_decide (c = newline)) && (2 <=? k)%nat
          then (c :: take k s') :: finditer_elongation k s'
          else finditer_elongation O s'
      end
  end.

(** ** The detector *)

Definition ngram : Type := list str.

Record StammeringDetector : Type := {
  min_repetitions : Z;
  max_ngram_size : Z;
}.

Section Detector.
Context `{DB : CharDB}.
Variable self : StammeringDetector.

(** [sum(len(match.group()) for match in matches
         if match.group()[0].isalnum())] *)
Fixpoint sum_elongated (acc : Z) (matches : list str) : result Z :=
  match matches with
  | [] => Ok acc
  | m :: matches' =>
      c ← Py.getitem m 0;
      if isalnum c then sum_elongated (acc + Py.len m) matches'
      else sum_elongated acc matches'
  end.

Definition _has_excessive_elongation (translated source : str)
  : result bool :=
  let translated_matches := finditer_elongation O (lower translated) in
  let source_matches := finditer_elongation O (lower source) in
  translated_count ← sum_elongated 0 translated_matches;
  source_count ← sum_elongated 0 source_matches;
  if (translated_count >? 40) && (translated_count >? source_count * 3)
  then Ok true
  else Ok false.

Definition _tokenize (text : str) : list str :=
  let tokens := split text in
  lower <$> List.filter Py.truthy tokens.

Definition _get_ngrams (tokens : list str) (n : Z) : list ngram :=
  (fun i => Py.slice tokens i (i + n)) <$> Py.range 0 (Py.len tokens - n + 1).

(** The loop of [_count_max_consecutive], from the state
    [(max_count, current_count)]. *)
Fixpoint count_max_consecutive_loop (target : ngram)
    (max_count current_count : Z) (ngrams : list ngram) : Z :=
  match ngrams with
  | [] => max_count
  | ngram :: ngrams' =>
      if decide (ngram = target) then
        let current_count := current_count + 1 in
        let max_count := Z.max max_count current_count in
        count_max_consecutive_loop target max_count current_count ngrams'
      else
        count_max_consecutive_loop target max_count 0 ngrams'
  end.

Definition _count_max_consecutive (ngrams : list ngram) (target : ngram)
  : Z :=
  count_max_consecutive_loop target 0 0 ngrams.

(** The loop of [_count_max_consecutive_any], from the state
    [(max_count, current_count, prev_ngram)]. *)
Fixpoint count_max_consecutive_any_loop (max_count current_count : Z)
    (prev_ngram : ngram) (ngrams : list ngram) : Z :=
  match ngrams with
  | [] => max_count
  | ngram :: ngrams' =>
      if decide (ngram = prev_ngram) then
        let current_count := current_count + 1 in
        let max_count := Z.max max_count current_count in
        count_max_consecutive_any_loop max_count current_count prev_ngram
          ngrams'
      else
        count_max_consecutive_any_loop max_count 1 ngram ngrams'
  end.

Definition _count_max_consecutive_any (ngrams : list ngram) : result Z :=
  if negb (Py.truthy ngrams) then Ok 0
  else
    prev_ngram ← Py.getitem ngrams 0;
    Ok (count_max_consecutive_any_loop 1 1 prev_ngram
          (Py.slice_from ngrams 1)).

(** First loop of [_has_ngram_repetition]: the frequency check. *)
Definition frequency_check (translated_ngrams source_ngrams : list ngram)
    (n : Z) : result bool :=
  let translated_ngram_counts := Py.Counter translated_ngrams in
  let source_ngram_counts := Py.Counter source_ngrams in
  max_source_repetition ←
    (if Py.truthy source_ngram_counts
     then Py.max (Py.values source_ngram_counts)
     else Ok 0);
  Py.for_return_true
    (fun '(ngram, count) =>
       if count >=? min_repetitions self then
         if n >? 1 then
           if Py.gt_times_1_5 count max_source_repetition
           then Ok true else Ok false
         else
           if Py.gt_times_1_5 count max_source_repetition
           then Ok true else Ok false
       else Ok false)
    (Py.items translated_ngram_counts).

(** Second loop of [_has_ngram_repetition]: the consecutive-run check. *)
Definition consecutive_check (translated_ngrams source_ngrams : list ngram)
  : result bool :=
  Py.for_return_true
    (fun i =>
       let window :=
         Py.slice translated_ngrams i (i + min_repetitions self) in
       if Py.len (Py.set window) =? 1 then
         ngram ← Py.getitem window 0;
         max_source_consecutive ← _count_max_consecutive_any source_ngrams;
         let max_translated_consecutive :=
           _count_max_consecutive translated_ngrams ngram in
         if max_source_consecutive >=? min_repetitions self then
           if max_translated_consecutive >? max_source_consecutive * 2
           then Ok true else Ok false
         else Ok true
       else Ok false)
    (Py.range 0 (Py.len translated_ngrams - min_repetitions self + 1)).

Definition _has_ngram_repetition (translated_tokens source_tokens : list str)
    (n : Z) : result bool :=
  let translated_ngrams := _get_ngrams translated_tokens n in
  let source_ngrams := _get_ngrams source_tokens n in
  flagged ← frequency_check translated_ngrams source_ngrams n;
  if flagged : bool then Ok true
  else consecutive_check translated_ngrams source_ngrams.

(** The n-gram sizes of the loop of [_has_phrase_repetition]. *)
Definition ngram_sizes (translated_tokens : list str) : list Z :=
  Py.range 1 (Z.min (max_ngram_size self + 1) (Py.len translated_tokens)).

Definition _has_phrase_repetition (translated source : str) : result bool :=
  let translated_tokens := _tokenize translated in
  let source_tokens := _tokenize source in
  Py.for_return_true
    (fun n => _has_ngram_repetition translated_tokens source_tokens n)
    (ngram_sizes translated_tokens).

Definition detect (source_sentence translated_sentence : str)
  : result bool :=
  elongated ← _has_excessive_elongation translated_sentence source_sentence;
  if elongated : bool then Ok true
  else
    repeated ← _has_phrase_repetition translated_sentence source_sentence;
    if repeated : bool then Ok true else Ok false.

End Detector.

(** [StammeringDetector(min_repetitions=3, max_ngram_size=5)] *)
Definition detector : StammeringDetector :=
  {| min_repetitions := 3; max_ngram_size := 5 |}.

Definition detect_stammering `{DB : CharDB}
    (source_sentence translated_sentence : str) : result bool :=
  detect detector source_sentence translated_sentence.

(** ** The request handler ([main.py], [models.py]) *)

Module Main.

(** [StammeringRequest]: both fields are declared [Field(..., min_length=1)]. *)
Record StammeringRequest : Type := {
  source_sentence : str;
  translated_sentence : str;
}.

(** Building a [StammeringRequest] validates the two lengths; the
    [ValidationError] that pydantic raises is a [ValueError]. *)
Definition new_StammeringRequest (source_sentence translated_sentence : str)
  : result StammeringRequest :=
  if (Py.len source_sentence <? 1) || (Py.len translated_sentence <? 1)
  then Raise ValueError
  else Ok {| source_sentence := source_sentence;
             translated_sentence := translated_sentence |}.

Record StammeringResponse : Type := { has_stammer : bool }.

(** What the handler gives back: the response body, or the [HTTPException]
    it raises, with its status code (the [detail] text is left out). *)
Inductive reply : Type :=
| Response (body : StammeringResponse)
| HTTPException (status_code : Z).

(** [detect_stammering_endpoint]: the body of the [try], then the two
    [except] clauses, [ValueError] first. *)
Definition detect_stammering_endpoint `{DB : CharDB}
    (source_sentence translated_sentence : str) : reply :=
  match
    request ← new_StammeringRequest source_sentence translated_sentence;
    has_stammer ←
      detect_stammering (Main.source_sentence request)
        (Main.translated_sentence request);
    Ok {| has_stammer := has_stammer |}
  with
  | Ok response => Response response
  | Raise ValueError => HTTPException 400
  | Raise _ => HTTPException 500
  end.

End Main.

(** ** A character database for concrete sentences *)

Module Latin1.

Definition between (lo hi c : N) : bool := ((lo <=? c) && (c <=? hi))%N.

(** Python's case mappings and classes on U+0000..U+00FF, and on the three
    code points outside that range which the mappings of that range reach
    (U+0178, U+039C, U+03BC).  Any other code point is mapped to itself and
    is neither alphanumeric, nor cased, nor case-ignorable.  The whitespace
    class is complete. *)
Definition lower_char (c : cp) : str :=
  if between 65 90 c then [c + 32]%N
  else if between 192 222 c && negb (c =? 215)%N then [c + 32]%N
  else if (c =? 376)%N then [255]%N
  else if (c =? 924)%N then [956]%N
  else [c].

Definition upper_char (c : cp) : str :=
  if between 97 122 c then [c - 32]%N
  else if between 224 254 c && negb (c =? 247)%N then [c - 32]%N
  else if (c =? 223)%N then [83; 83]%N
  else if (c =? 181)%N then [924]%N
  else if (c =? 255)%N then [376]%N
  else if (c =? 956)%N then [924]%N
  else [c].

Definition isalnum (c : cp) : bool :=
  between 48 57 c || between 65 90 c || between 97 122 c
  || (c =? 170)%N || between 178 179 c || (c =? 181)%N
  || between 185 186 c || between 188 190 c
  || between 192 214 c || between 216 246 c || between 248 255 c
  || (c =? 376)%N || (c =? 924)%N || (c =? 956)%N.

Definition isspace (c : cp) : bool :=
  between 9 13 c || between 28 32 c || (c =? 133)%N || (c =? 160)%N
  || (c =? 5760)%N || between 8192 8202 c || between 8232 8233 c
  || (c =? 8239)%N || (c =? 8287)%N || (c =? 12288)%N.

Definition cased (c : cp) : bool :=
  between 65 90 c || between 97 122 c
  || (c =? 170)%N || (c =? 181)%N || (c =? 186)%N
  || between 192 214 c || between 216 246 c || between 248 255 c
  || (c =? 376)%N || (c =? 924)%N || (c =? 956)%N.

Definition case_ignorable (c : cp) : bool :=
  (c =? 39)%N || (c =? 46)%N || (c =? 58)%N || (c =? 94)%N || (c =? 96)%N
  || (c =? 168)%N || (c =? 173)%N || (c =? 175)%N || (c =? 180)%N
  || between 183 184 c.

#[export] Instance latin1 : CharDB :=
  Build_CharDB lower_char upper_char isalnum isspace cased case_ignorable
    eq_refl eq_refl eq_refl eq_refl.

(** The code points of a literal (ASCII only: one byte per code point). *)
Definition of_string (s : string) : str :=
  N_of_ascii <$> list_ascii_of_string s.

End Latin1.

(** ** A character database with Greek letters *)

Module Greek.

(** [latin1] with Python's case mappings and classes on the letters alpha
    and sigma: U+0391, U+03A3, U+03B1, U+03C2, U+03C3. *)
Definition letters : list cp := [913; 931; 945; 962; 963]%N.

Definition letter (c : cp) : bool := existsb (N.eqb c) letters.

Definition lower_char (c : cp) : str :=
  if (c =? 913)%N then [945]%N
  else if (c =? 931)%N then [963]%N
  else Latin1.lower_char c.

Definition upper_char (c : cp) : str :=
  if (c =? 945)%N then [913]%N
  else if Latin1.between 962 963 c then [931]%N
  else Latin1.upper_char c.

Definition isalnum (c : cp) : bool := letter c || Latin1.isalnum c.

Definition cased (c : cp) : bool := letter c || Latin1.cased c.

#[export] Instance greek : CharDB :=
  Build_CharDB lower_char upper_char isalnum Latin1.isspace
    cased Latin1.case_ignorable eq_refl eq_refl eq_refl eq_refl.

End Greek.

(** ** The test script ([tests/test_stammering_cases.py]) *)

Module Tests.

Record test_case : Type := {
  source : str;
  translated : str;
  expected : bool;
}.

(** [test_cases]; the two non-ASCII letters are given by their code
    points. *)
Definition test_cases : list test_case :=
  [ {| source := Latin1.of_string "Vorrei comprare un biglietto";
       translated := Latin1.of_string "I would like to buy a ticket";
       expected := false |};
    {| source := Latin1.of_string "Amo la musica";
       translated := Latin1.of_string "I love music";
       expected := false |};
    {| source := Latin1.of_string "Dove si trova la stazione?";
       translated :=
         Latin1.of_string "Where is the station station station station?";
       expected := true |};
    {| source := Latin1.of_string "Sono molto molto molto molto felice";
       translated := Latin1.of_string "I am very happy";
       expected := false |};
    {| source := Latin1.of_string "Posso aiutarti?";
       translated := Latin1.of_string "Can I help you??";
       expected := false |};
    {| source := Latin1.of_string "Sono affamato";
       translated := Latin1.of_string "I'm hungry";
       expected := false |};
    {| source :=
         Latin1.of_string "Sono cos" ++ [236%N] ++ Latin1.of_string " stanco";
       translated := Latin1.of_string "I'm sooo tired";
       expected := false |};
    {| source := Latin1.of_string "ciao";
       translated := Latin1.of_string "bye bye";
       expected := false |};
    {| source := Latin1.of_string "ciao ciao ciao ciao";
       translated := Latin1.of_string "bye bye bye bye";
       expected := false |};
    {| source := Latin1.of_string "ciao ciao";
       translated :=
         Latin1.of_string "bye bye bye bye bye bye bye bye bye bye bye";
       expected := true |};
    {| source :=
         Latin1.of_string "Questo " ++ [232%N]
           ++ Latin1.of_string " veramente l'ultimo test";
       translated :=
         Latin1.of_string "This is really the is really the is really the"
           ++ Latin1.of_string " is really the last test";
       expected := true |};
    {| source := Latin1.of_string "Mi piace moooooooolto il cibo italiano";
       translated :=
         Latin1.of_string "I like Italian food s" ++ replicate 150 111%N;
       expected := true |} ].

(** The loop of the script, from the counters [(passed, failed)]: a case
    passes when the reply has status 200 and the expected verdict. *)
Fixpoint run (passed failed : Z) (cases : list test_case) : Z * Z :=
  match cases with
  | [] => (passed, failed)
  | test :: cases' =>
      match
        Main.detect_stammering_endpoint (DB := Latin1.latin1)
          (source test) (translated test)
      with
      | Main.Response body =>
          if Bool.eqb (Main.has_stammer body) (expected test)
          then run (passed + 1) failed cases'
          else run passed (failed + 1) cases'
      | Main.HTTPException _ => run passed (failed + 1) cases'
      end
  end.

End Tests.

(** ** The detector with one frequency rule *)

(** The detector with the two branches of the frequency check collapsed
    into one rule. *)
Module Collapsed.
Section Collapsed.
Context `{DB : CharDB}.
Variable self : StammeringDetector.

Definition frequency_check (translated_ngrams source_ngrams : list ngram)
  : result bool :=
  let translated_ngram_counts := Py.Counter translated_ngrams in
  let source_ngram_counts := Py.Counter source_ngrams in
  max_source_repetition ←
    (if Py.truthy source_ngram_counts
     then Py.max (Py.values source_ngram_counts)
     else Ok 0);
  Py.for_return_true
    (fun '(ngram, count) =>
       if (count >=? min_repetitions self)
          && Py.gt_times_1_5 count max_source_repetition
       then Ok true else Ok false)
    (Py.items translated_ngram_counts).

Definition _has_ngram_repetition (translated_tokens source_tokens : list str)
    (n : Z) : result bool :=
  let translated_ngrams := _get_ngrams translated_tokens n in
  let source_ngrams := _get_ngrams source_tokens n in
  flagged ← frequency_check translated_ngrams source_ngrams;
  if flagged : bool then Ok true
  else consecutive_check self translated_ngrams source_ngrams.

Definition _has_phrase_repetition (translated source : str) : result bool :=
  let translated_tokens := _tokenize translated in
  let source_tokens := _tokenize source in
  Py.for_return_true
    (fun n => _has_ngram_repetition translated_tokens source_tokens n)
    (ngram_sizes self translated_tokens).

Definition detect (source_sentence translated_sentence : str)
  : result bool :=
  elongated ← _has_excessive_elongation translated_sentence source_sentence;
  if elongated : bool then Ok true
  else
    repeated ← _has_phrase_repetition translated_sentence source_sentence;
    if repeated : bool then Ok true else Ok false.

End Collapsed.
End Collapsed.

(** ** The order of the checks *)

(** The items on which a [for_return_true] loop runs its test: those up to
    the first one whose test does not return [False]. *)
Fixpoint tested {A} (test : A → result bool) (l : list A) : list A :=
  match l with
  | [] => []
  | x :: l' =>
      x :: match test x with
           | Ok false => tested test l'
           | _ => []
           end
  end.

Inductive check : Type :=
| Elongation
| Ngram (n : Z).

(** The control flow of [detect], its two checks given as computations,
    and the [for] loop of [_has_phrase_repetition], written for any monad.
    Run in [result] they are [detect] and [Py.for_return_true]. *)
Section Control.
Context {M : Type → Type} `{MRet M, MBind M}.

Definition detect_body (elongation phrase_repetition : M bool) : M bool :=
  elongated ← elongation;
  if elongated : bool then mret true
  else
    repeated ← phrase_repetition;
    if repeated : bool then mret true else mret false.

Fixpoint for_return_true_body {A} (test : A → M bool) (l : list A)
  : M bool :=
  match l with
  | [] => mret false
  | x :: l' =>
      b ← test x;
      if b : bool then mret true else for_return_true_body test l'
  end.

End Control.

(** A computation that also lists the checks it has entered so far: a
    computation that is never bound adds nothing to the list. *)
Definition traced (A : Type) : Type := list check * result A.

#[global] Instance traced_ret : MRet traced := fun A a => ([], Ok a).
#[global] Instance traced_bind : MBind traced := fun A B f m =>
  match m.2 with
  | Ok a => (m.1 ++ (f a).1, (f a).2)
  | Raise e => (m.1, Raise e)
  end.

(** Entering a check, then running it. *)
Definition enter {A} (c : check) (m : result A) : traced A := ([c], m).

(** [detect], with the checks it enters listed in order: the same control
    flow, run on the elongation check and on the per-size checks, each
    listed when it is entered. *)
Definition detect_traced `{DB : CharDB} (self : StammeringDetector)
    (source translated : str) : traced bool :=
  let translated_tokens := _tokenize translated in
  let source_tokens := _tokenize source in
  detect_body
    (enter Elongation (_has_excessive_elongation translated source))
    (for_return_true_body
       (fun n =>
          enter (Ngram n)
            (_has_ngram_repetition self translated_tokens source_tokens n))
       (ngram_sizes self translated_tokens)).

(** The checks that [detect] runs, in order. *)
Definition checks_run `{DB : CharDB} (self : StammeringDetector)
    (source translated : str) : list check :=
  (detect_traced self source translated).1.

(** * Specification *)

(** The notions in which the properties of the detector are stated:
    numbers of occurrences, runs of equal elements, the elongation score,
    and what each check returns. *)

(** ** Occurrences *)

(** The number of occurrences of [x] in [l]. *)
Fixpoint occurrences `{EqDecision K} (x : K) (l : list K) : Z :=
  match l with
  | [] => 0
  | y :: l' => (if decide (y = x) then 1 else 0) + occurrences x l'
  end.

(** [d.get(k, 0)] *)
Fixpoint get0 `{EqDecision K} (d : list (K * Z)) (k : K) : Z :=
  match d with
  | [] => 0
  | (k', c) :: d' => if decide (k = k') then c else get0 d' k
  end.

(** The largest number of occurrences of an element of [l] ([0] for the
    empty list). *)
Definition max_frequency `{EqDecision K} (l : list K) : Z :=
  foldr (fun g m => Z.max (occurrences g l) m) 0 l.

(** ** Runs *)

(** The length of the longest run of consecutive [g]s in [l]: the largest
    [lead] over the positions of [l]. *)
Fixpoint longest_run `{EqDecision A} (g : A) (l : list A) : nat :=
  match l with
  | [] => O
  | _ :: l' => Nat.max (lead g l) (longest_run g l')
  end.

(** The length of the longest run of consecutive equal elements of [l]. *)
Fixpoint longest_run_any `{EqDecision A} (l : list A) : nat :=
  match l with
  | [] => O
  | y :: l' => Nat.max (S (lead y l')) (longest_run_any l')
  end.

(** [l] holds [k] consecutive [g]s from position [i]. *)
Definition run_at {A} (g : A) (k i : nat) (l : list A) : Prop :=
  take k (drop i l) = replicate k g.

(** The maximal runs of [s], in order: each with its element and its
    length. *)
Fixpoint runs `{EqDecision A} (s : list A) : list (A * nat) :=
  match s with
  | [] => []
  | c :: s' =>
      match runs s' with
      | (c', k) :: r =>
          if decide (c = c') then (c, S k) :: r else (c, 1%nat) :: (c', k) :: r
      | [] => [(c, 1%nat)]
      end
  end.

(** ** The elongation score *)

(** The total length of the runs of three or more copies of an
    alphanumeric code point. *)
Fixpoint elongated_total `{DB : CharDB} (rs : list (cp * nat)) : Z :=
  match rs with
  | [] => 0
  | (c, k) :: rs' =>
      (if (3 <=? k)%nat && isalnum c then Z.of_nat k else 0)
      + elongated_total rs'
  end.

(** The elongation score of a text: that total over the maximal runs of
    the lowercased text. *)
Definition elongation_score `{DB : CharDB} (text : str) : Z :=
  elongated_total (runs (lower text)).

(** ** What the checks return *)

(** What the frequency check returns. *)
Definition frequency_flag (self : StammeringDetector)
    (translated_ngrams source_ngrams : list ngram) : bool :=
  existsb
    (fun p : ngram * Z =>
       (p.2 >=? min_repetitions self)
       && Py.gt_times_1_5 p.2 (max_frequency source_ngrams))
    (Py.Counter translated_ngrams).

(** What one iteration of the consecutive-run loop decides at window [i]. *)
Definition window_flag (self : StammeringDetector)
    (translated_ngrams source_ngrams : list ngram) (i : Z) : bool :=
  let window := Py.slice translated_ngrams i (i + min_repetitions self) in
  if Py.len (Py.set window) =? 1 then
    match window with
    | [] => false
    | g :: _ =>
        let max_source_consecutive :=
          Z.of_nat (longest_run_any source_ngrams) in
        if max_source_consecutive >=? min_repetitions self then
          Z.of_nat (longest_run g translated_ngrams)
          >? max_source_consecutive * 2
        else true
    end
  else false.

(** What the consecutive-run check returns. *)
Definition consecutive_flag (self : StammeringDetector)
    (translated_ngrams source_ngrams : list ngram) : bool :=
  existsb (window_flag self translated_ngrams source_ngrams)
    (Py.range 0 (Py.len translated_ngrams - min_repetitions self + 1)).

(** What the check at one n-gram size returns. *)
Definition ngram_flag (self : StammeringDetector)
    (translated_tokens source_tokens : list str) (n : Z) : bool :=
  frequency_flag self (_get_ngrams translated_tokens n)
    (_get_ngrams source_tokens n)
  || consecutive_flag self (_get_ngrams translated_tokens n)
       (_get_ngrams source_tokens n).

(** ** The consecutive-run rule, one window value at a time *)

(** Whenever some window of three translated n-grams holds a single value
    [g], the check fires, when the longest source run is at least 3,
    exactly when the longest run of that [g] exceeds twice the longest
    source run, and fires when the longest source run is below 3. *)
Definition single_value_rule (translated_ngrams source_ngrams : list ngram)
  : Prop :=
  ∀ (g : ngram) (i : nat),
    run_at g 3 i translated_ngrams →
    let max_source_consecutive := Z.of_nat (longest_run_any source_ngrams) in
    (3 ≤ max_source_consecutive →
     consecutive_check detector translated_ngrams source_ngrams = Ok true
     ↔ max_source_consecutive * 2
       < Z.of_nat (longest_run g translated_ngrams))
    ∧ (max_source_consecutive < 3 →
       consecutive_check detector translated_ngrams source_ngrams = Ok true).

(** ** Uppercase and lowercase *)

(** A code point that is not the capital sigma and whose uppercase holds
    none, so that [str.lower] maps it, and its uppercase, one code point at
    a time; whose uppercase lowers to its lowercase; and whose uppercase is
    the code point itself when this is whitespace, and a non-empty
    whitespace-free string otherwise. *)
Definition case_stable `{DB : CharDB} (c : cp) : bool :=
  (negb (bool_decide (c = capital_sigma))
   && forallb (fun u => negb (bool_decide (u = capital_sigma)))
        (upper_char c))
  && (bool_decide (lower (upper_char c) = lower_char c)
      && (if isspace c then bool_decide (upper_char c = [c])
          else Py.truthy (upper_char c)
               && forallb (fun u => negb (isspace u)) (upper_char c))).

(** * Properties *)

(** ** The built-ins *)

Lemma bind_Ok {A B} (f : A → result B) (a : A) : (Ok a ≫= f) = f a.
Proof. reflexivity. Qed.

Lemma len_nonneg {A} (l : list A) : 0 ≤ Py.len l.
Proof. unfold Py.len. lia. Qed.

Lemma len_app {A} (l k : list A) : Py.len (l ++ k) = Py.len l + Py.len k.
Proof. unfold Py.len. rewrite length_app. lia. Qed.

(** A slice with bounds [0 ≤ i ≤ i + n] is [n] elements from position [i],
    or what is left of the list. *)
Lemma slice_take_drop {A} (l : list A) (i n : Z) :
  0 ≤ i → 0 ≤ n →
  Py.slice l i (i + n) = take (Z.to_nat n) (drop (Z.to_nat i) l).
Proof.
  intros Hi Hn. unfold Py.slice, Py.clamp, Py.len.
  destruct (Z.ltb_spec i 0); [lia|].
  destruct (Z.ltb_spec (i + n) 0); [lia|].
  destruct (Z_le_gt_dec (i + n) (Z.of_nat (length l))).
  - f_equal; [lia|]. f_equal. lia.
  - destruct (Z_le_gt_dec i (Z.of_nat (length l))).
    + replace (Z.to_nat (Z.max 0 (Z.min (Z.of_nat (length l)) i)))
        with (Z.to_nat i) by lia.
      rewrite !take_ge; [done| |]; rewrite length_drop; lia.
    + rewrite !drop_ge by lia. by rewrite !take_nil.
Qed.

Lemma slice_from_drop {A} (l : list A) (i : Z) :
  0 ≤ i → Py.slice_from l i = drop (Z.to_nat i) l.
Proof.
  intros Hi. unfold Py.slice_from, Py.clamp, Py.len.
  destruct (Z.ltb_spec i 0); [lia|].
  destruct (Z_le_gt_dec i (Z.of_nat (length l))).
  - f_equal. lia.
  - rewrite !drop_ge; [done|lia|lia].
Qed.

Lemma getitem_0 {A} (x : A) (l : list A) : Py.getitem (x :: l) 0 = Ok x.
Proof.
  unfold Py.getitem, Py.len. simpl.
  destruct (Z.ltb_spec 0 (Z.pos (Pos.of_succ_nat (length l)))); [done|lia].
Qed.

Lemma fold_max_spec (l : list Z) (x : Z) :
  let m := fold_left Z.max l x in
  (m = x ∨ m ∈ l) ∧ x ≤ m ∧ ∀ y, y ∈ l → y ≤ m.
Proof.
  revert x. induction l as [|a l IH]; intros x; simpl.
  - split; [by left|]. split; [lia|]. intros y Hy. by apply elem_of_nil in Hy.
  - destruct (IH (Z.max x a)) as (Hin & Hle & Hub).
    split; [|split].
    + destruct Hin as [->|Hin].
      * destruct (Z.max_spec x a) as [[_ ->]|[_ ->]];
          [right; left|by left].
      * right. by right.
    + lia.
    + intros y Hy. apply elem_of_cons in Hy as [->|Hy]; [lia|by apply Hub].
Qed.

(** [max] of a non-empty sequence is one of its elements and bounds them
    all. *)
Lemma max_spec (l : list Z) :
  l ≠ [] → ∃ m, Py.max l = Ok m ∧ m ∈ l ∧ ∀ y, y ∈ l → y ≤ m.
Proof.
  destruct l as [|x l]; [done|]. intros _. simpl.
  destruct (fold_max_spec l x) as (Hin & Hle & Hub).
  eexists. split; [done|]. split.
  - destruct Hin as [->|Hin]; [left|by right].
  - intros y Hy. apply elem_of_cons in Hy as [->|Hy]; [done|by apply Hub].
Qed.

Lemma sum_fold (l : list Z) (a : Z) : fold_left Z.add l a = a + Py.sum l.
Proof.
  unfold Py.sum. revert a. induction l as [|x l IH]; intros a; simpl; [lia|].
  rewrite (IH (a + x)), (IH (0 + x)). lia.
Qed.

(** A loop of total tests returns whether some test holds. *)
Lemma for_return_true_total {A} (test : A → result bool) (f : A → bool)
    (l : list A) :
  (∀ x, x ∈ l → test x = Ok (f x)) →
  Py.for_return_true test l = Ok (existsb f l).
Proof.
  induction l as [|x l IH]; intros H; simpl; [done|].
  rewrite (H x) by left. simpl. destruct (f x); [done|].
  apply IH. intros y Hy. apply H. by right.
Qed.

Lemma existsb_elem_of {A} (f : A → bool) (l : list A) :
  existsb f l = true ↔ ∃ x, x ∈ l ∧ f x = true.
Proof.
  rewrite existsb_exists. by setoid_rewrite list_elem_of_In.
Qed.

(** [len(set(w)) == 1]: [w] is not empty and all its elements are equal. *)
Lemma set_singleton `{EqDecision A} (w : list A) :
  Py.len (Py.set w) = 1 ↔ ∃ g, g ∈ w ∧ ∀ x, x ∈ w → x = g.
Proof.
  unfold Py.len, Py.set. split.
  - intros H.
    destruct (remove_dups w) as [|g [|g' r]] eqn:E; simpl in H; try lia.
    exists g. split.
    + apply elem_of_remove_dups. rewrite E. left.
    + intros x Hx. apply elem_of_remove_dups in Hx. rewrite E in Hx.
      by apply list_elem_of_singleton in Hx.
  - intros (g & Hg & Hall).
    assert (Hsub : ∀ x, x ∈ remove_dups w → x = g).
    { intros x Hx. apply Hall. by apply elem_of_remove_dups. }
    assert (Hnd := NoDup_remove_dups w).
    apply elem_of_remove_dups in Hg.
    destruct (remove_dups w) as [|a [|b r]]; simpl.
    + by apply elem_of_nil in Hg.
    + done.
    + exfalso. apply NoDup_cons in Hnd as [Hnotin _]. apply Hnotin.
      rewrite (Hsub a), (Hsub b); [left| right; left | left].
Qed.

(** *** Counter *)

Section Counter.
Context `{EqDecision K}.
Implicit Types (k g x : K) (d : list (K * Z)) (l : list K).

Lemma occurrences_nonneg x l : 0 ≤ occurrences x l.
Proof. induction l as [|y l IH]; simpl; [lia|]. case_decide; lia. Qed.

Lemma occurrences_pos x l : x ∈ l ↔ 0 < occurrences x l.
Proof.
  induction l as [|y l IH]; simpl.
  - split; [intros H; by apply elem_of_nil in H|lia].
  - pose proof (occurrences_nonneg x l). rewrite elem_of_cons.
    case_decide; subst; [split; [lia|by left]|].
    rewrite IH. split; [intros [?|?]; [congruence|lia]|intros; right; lia].
Qed.

Lemma occurrences_app x l l' :
  occurrences x (l ++ l') = occurrences x l + occurrences x l'.
Proof. induction l as [|y l IH]; simpl; [lia|]. rewrite IH. lia. Qed.

Lemma get0_incr k d g :
  get0 (Py.incr k d) g = get0 d g + (if decide (k = g) then 1 else 0).
Proof.
  induction d as [|[k' c] d IH]; simpl.
  - repeat case_decide; congruence || lia.
  - destruct (decide (k = k')) as [->|Hk]; simpl.
    + destruct (decide (g = k')) as [->|Hg].
      * rewrite decide_True by done. lia.
      * rewrite decide_False by congruence. lia.
    + destruct (decide (g = k')) as [->|Hg].
      * rewrite decide_False by done. lia.
      * apply IH.
Qed.

Lemma keys_incr k d g : g ∈ (Py.incr k d).*1 ↔ g = k ∨ g ∈ d.*1.
Proof.
  induction d as [|[k' c] d IH]; simpl.
  - rewrite list_elem_of_singleton. split; [by left|].
    intros [?|H]; [done|by apply elem_of_nil in H].
  - case_decide; subst; simpl; rewrite !elem_of_cons; [naive_solver|].
    rewrite IH. naive_solver.
Qed.

Lemma NoDup_incr k d : NoDup d.*1 → NoDup (Py.incr k d).*1.
Proof.
  induction d as [|[k' c] d IH]; simpl; intros Hnd.
  - apply NoDup_singleton.
  - apply NoDup_cons in Hnd as [Hnotin Hnd].
    case_decide; subst; simpl; apply NoDup_cons; split; auto.
    rewrite keys_incr. naive_solver.
Qed.

Lemma elem_of_get0 d g c : NoDup d.*1 → (g, c) ∈ d ↔ g ∈ d.*1 ∧ get0 d g = c.
Proof.
  induction d as [|[k' c'] d IH]; simpl; intros Hnd.
  - split; [intros H; by apply elem_of_nil in H|].
    intros [H _]; by apply elem_of_nil in H.
  - apply NoDup_cons in Hnd as [Hnotin Hnd].
    rewrite !elem_of_cons, (IH Hnd). case_decide; subst.
    + split; [|naive_solver].
      intros [[= ->]|[Hin _]]; [auto|done].
    + naive_solver.
Qed.

Lemma Counter_fold (l : list K) (d : list (K * Z)) :
  let d' := fold_left (fun d k => Py.incr k d) l d in
  (NoDup d.*1 → NoDup d'.*1)
  ∧ (∀ g, g ∈ d'.*1 ↔ g ∈ d.*1 ∨ g ∈ l)
  ∧ (∀ g, get0 d' g = get0 d g + occurrences g l).
Proof.
  revert d. induction l as [|k l IH]; intros d; simpl.
  - split; [done|]. split; [|intros; lia].
    intros g. split; [by left|]. intros [?|H]; [done|by apply elem_of_nil in H].
  - destruct (IH (Py.incr k d)) as (Hnd & Hkeys & Hget).
    split; [|split].
    + intros H. by apply Hnd, NoDup_incr.
    + intros g. rewrite Hkeys, keys_incr, elem_of_cons. naive_solver.
    + intros g. rewrite Hget, get0_incr. lia.
Qed.

(** The items of [Counter(l)] are the distinct elements of [l], each with
    its number of occurrences. *)
Lemma Counter_spec (l : list K) (g : K) (c : Z) :
  (g, c) ∈ Py.Counter l ↔ g ∈ l ∧ c = occurrences g l.
Proof.
  destruct (Counter_fold l []) as (Hnd & Hkeys & Hget).
  unfold Py.Counter. rewrite elem_of_get0 by (apply Hnd; constructor).
  rewrite Hkeys, Hget. simpl. split.
  - intros [[H|H] <-]; [by apply elem_of_nil in H|]. split; [done|lia].
  - intros [H ->]. split; [by right|lia].
Qed.

Lemma Counter_NoDup (l : list K) : NoDup (Py.Counter l).*1.
Proof. apply (Counter_fold l []). constructor. Qed.

Lemma Counter_nil_iff (l : list K) : Py.Counter l = [] ↔ l = [].
Proof.
  split; [|by intros ->].
  destruct l as [|x l]; [done|]. intros H.
  assert (Hx : (x, occurrences x (x :: l)) ∈ Py.Counter (x :: l)).
  { apply Counter_spec. split; [left|done]. }
  rewrite H in Hx. by apply elem_of_nil in Hx.
Qed.

Lemma max_frequency_spec (l : list K) :
  (∀ g, occurrences g l ≤ max_frequency l)
  ∧ (l ≠ [] → ∃ g, g ∈ l ∧ occurrences g l = max_frequency l).
Proof.
  unfold max_frequency.
  assert (H : ∀ k : list K,
    let m := foldr (fun g m => Z.max (occurrences g l) m) 0 k in
    0 ≤ m ∧ (∀ g, g ∈ k → occurrences g l ≤ m)
    ∧ (k ≠ [] → ∃ g, g ∈ k ∧ occurrences g l = m)).
  { induction k as [|x k (Hm & Hub & Hatt)]; simpl.
    - split; [lia|]. split; [|done]. intros g Hg. by apply elem_of_nil in Hg.
    - split; [lia|]. split.
      + intros g Hg. apply elem_of_cons in Hg as [->|Hg]; [lia|].
        specialize (Hub g Hg). lia.
      + intros _. destruct (Z.max_spec (occurrences x l)
          (foldr (fun g m => Z.max (occurrences g l) m) 0 k)) as [[Hlt ->]|[Hle ->]].
        * destruct k as [|y k]; [simpl in *; pose proof (occurrences_nonneg x l); lia|].
          destruct Hatt as (g & Hg & <-); [done|]. exists g. split; [by right|done].
        * exists x. split; [left|done]. }
  destruct (H l) as (Hm & Hub & Hatt). split; [|done].
  intros g. destruct (decide (g ∈ l)) as [Hg|Hg]; [by apply Hub|].
  rewrite occurrences_pos in Hg. pose proof (occurrences_nonneg g l). lia.
Qed.

Lemma max_frequency_nil : max_frequency ([] : list K) = 0.
Proof. reflexivity. Qed.

(** [max(Counter(l).values()) if Counter(l) else 0] *)
Lemma max_Counter (l : list K) :
  (if Py.truthy (Py.Counter l) then Py.max (Py.values (Py.Counter l))
   else Ok 0) = Ok (max_frequency l).
Proof.
  destruct (max_frequency_spec l) as [Hub Hatt].
  destruct (Py.Counter l) as [|p d] eqn:E.
  - apply Counter_nil_iff in E. by subst.
  - assert (Hl : l ≠ []) by (intros ->; done).
    simpl Py.truthy. cbv iota. rewrite <- E.
    destruct (max_spec (Py.values (Py.Counter l))) as (m & -> & Hin & Hmax).
    { rewrite E. done. }
    f_equal. unfold Py.values in *.
    apply list_elem_of_fmap in Hin as ([g c] & -> & Hin). simpl.
    apply Counter_spec in Hin as [Hg ->].
    destruct (Hatt Hl) as (g' & Hg' & Hocc).
    specialize (Hub g).
    assert (occurrences g' l ≤ occurrences g l); [|lia].
    apply Hmax. apply list_elem_of_fmap. exists (g', occurrences g' l).
    split; [done|]. by apply Counter_spec.
Qed.

End Counter.

(** ** Runs of equal elements *)

Section Runs.
Context `{EqDecision A}.
Implicit Types (x g : A) (l : list A).

Lemma lead_take g l : take (lead g l) l = replicate (lead g l) g.
Proof.
  induction l as [|y l IH]; simpl; [done|].
  case_decide; subst; simpl; [by rewrite IH|done].
Qed.

Lemma lead_ge g l k : take k l = replicate k g → (k ≤ lead g l)%nat.
Proof.
  revert k. induction l as [|y l IH]; intros [|k]; simpl; try done; try lia.
  intros [= -> Hk]. rewrite decide_True by done. apply IH in Hk. lia.
Qed.

Lemma lead_le_longest g l : (lead g l ≤ longest_run g l)%nat.
Proof. destruct l; simpl; lia. Qed.

Lemma lead_replicate_app g k l :
  lead g (replicate k g ++ l) = (k + lead g l)%nat.
Proof. induction k as [|k IH]; simpl; [done|]. by rewrite decide_True, IH. Qed.

(** [longest_run g l] consecutive [g]s occur in [l] ... *)
Lemma longest_run_occurs g l : ∃ i, run_at g (longest_run g l) i l.
Proof.
  unfold run_at. induction l as [|y l [i IH]].
  - by exists O.
  - cbn [longest_run].
    destruct (Nat.max_spec (lead g (y :: l)) (longest_run g l))
      as [[_ ->]|[_ ->]].
    + by exists (S i).
    + exists O. apply lead_take.
Qed.

(** ... and no more. *)
Lemma longest_run_bound g l k i : run_at g k i l → (k ≤ longest_run g l)%nat.
Proof.
  unfold run_at. revert l. induction i as [|i IH]; intros l H.
  - rewrite drop_0 in H. apply lead_ge in H.
    pose proof (lead_le_longest g l). lia.
  - destruct l as [|y l].
    + destruct k; [lia|done].
    + simpl in H. apply IH in H. cbn [longest_run]. lia.
Qed.

Lemma longest_run_le_any g l : (longest_run g l ≤ longest_run_any l)%nat.
Proof.
  induction l as [|y l IH]; simpl; [done|].
  case_decide; subst; lia.
Qed.

(** The longest run of [l] is the longest run of one of its elements. *)
Lemma longest_run_any_attained l :
  l ≠ [] → ∃ g, g ∈ l ∧ longest_run g l = longest_run_any l.
Proof.
  induction l as [|y l IH]; [done|]. intros _.
  pose proof (longest_run_le_any y (y :: l)) as Hy.
  assert (Hcons : longest_run_any (y :: l)
                  = Nat.max (S (lead y l)) (longest_run_any l)) by done.
  destruct (Nat.max_spec (S (lead y l)) (longest_run_any l))
    as [[Hlt Hmax]|[Hle Hmax]].
  - destruct l as [|z l]; [simpl in *; lia|].
    destruct IH as (g & Hg & Hrun); [done|].
    exists g. split; [by right|].
    pose proof (longest_run_le_any g (y :: z :: l)) as Hb.
    assert (longest_run g (z :: l) ≤ longest_run g (y :: z :: l))%nat
      by (cbn [longest_run]; lia).
    lia.
  - exists y. split; [left|].
    pose proof (lead_le_longest y (y :: l)) as Hl.
    assert (lead y (y :: l) = S (lead y l))
      by (simpl; by rewrite decide_True).
    lia.
Qed.

Lemma longest_run_app g l l' :
  (longest_run g l ≤ longest_run g (l ++ l'))%nat.
Proof.
  destruct (decide (longest_run g l = O)) as [->|Hpos]; [lia|].
  destruct (longest_run_occurs g l) as [i Hi].
  apply (longest_run_bound g _ _ i). unfold run_at in *.
  assert (Hlen : (i + longest_run g l ≤ length l)%nat).
  { apply (f_equal length) in Hi.
    rewrite length_take, length_drop, length_replicate in Hi. lia. }
  rewrite drop_app_le by lia. rewrite take_app_le; [done|].
  rewrite length_drop. lia.
Qed.

(** Three equal elements in a row make a run of length three. *)
Lemma run_at_3 g i l :
  take 3 (drop i l) = [g; g; g] → (3 ≤ longest_run g l)%nat.
Proof. intros H. by apply (longest_run_bound g l 3 i). Qed.

End Runs.

(** The two counting loops compute these run lengths. *)

Lemma count_max_consecutive_loop_spec (target : ngram) (ngrams : list ngram)
    (max_count current_count : Z) :
  0 ≤ current_count ≤ max_count →
  count_max_consecutive_loop target max_count current_count ngrams
  = Z.max max_count
      (Z.max (current_count + Z.of_nat (lead target ngrams))
             (Z.of_nat (longest_run target ngrams))).
Proof.
  revert max_count current_count.
  induction ngrams as [|g l IH]; intros mx cur Hc; simpl.
  - lia.
  - pose proof (lead_le_longest target l).
    case_decide; subst; rewrite IH by lia; lia.
Qed.

Lemma _count_max_consecutive_spec (ngrams : list ngram) (target : ngram) :
  _count_max_consecutive ngrams target = Z.of_nat (longest_run target ngrams).
Proof.
  unfold _count_max_consecutive.
  rewrite count_max_consecutive_loop_spec by lia.
  pose proof (lead_le_longest target ngrams). lia.
Qed.

Lemma count_max_consecutive_any_loop_spec (prev : ngram)
    (ngrams : list ngram) (max_count current_count : Z) :
  1 ≤ current_count ≤ max_count →
  count_max_consecutive_any_loop max_count current_count prev ngrams
  = Z.max max_count
      (Z.max (current_count + Z.of_nat (lead prev ngrams))
             (Z.of_nat (longest_run_any ngrams))).
Proof.
  revert prev max_count current_count.
  induction ngrams as [|g l IH]; intros prev mx cur Hc; simpl.
  - lia.
  - case_decide; subst; rewrite IH by lia; lia.
Qed.

Lemma _count_max_consecutive_any_spec (ngrams : list ngram) :
  _count_max_consecutive_any ngrams
  = Ok (Z.of_nat (longest_run_any ngrams)).
Proof.
  unfold _count_max_consecutive_any. destruct ngrams as [|g l]; [done|].
  simpl Py.truthy. cbv iota. simpl negb. cbv iota.
  rewrite getitem_0, bind_Ok. f_equal.
  rewrite slice_from_drop by lia. change (Z.to_nat 1) with 1%nat.
  simpl drop. rewrite drop_0.
  rewrite count_max_consecutive_any_loop_spec by lia.
  cbn [longest_run_any]. lia.
Qed.

(** ** Elongation *)

Section RunsOfList.
Context `{EqDecision A}.
Implicit Types (c : A) (s : list A).

Lemma lead_le_length c s : (lead c s ≤ length s)%nat.
Proof. induction s as [|y s IH]; simpl; [done|]. case_decide; lia. Qed.

(** The first run of [c :: s] is the leading [c]s; the others are the runs
    of what follows them. *)
Lemma runs_cons c s :
  runs (c :: s) = (c, S (lead c s)) :: runs (drop (lead c s) s).
Proof.
  revert c. induction s as [|y s IH]; intros c; [done|].
  change (runs (c :: y :: s)) with
    (match runs (y :: s) with
     | (c', k) :: r =>
         if decide (c = c') then (c, S k) :: r else (c, 1%nat) :: (c', k) :: r
     | [] => [(c, 1%nat)]
     end).
  rewrite (IH y). simpl lead. destruct (decide (y = c)) as [->|Hne].
  - by rewrite decide_True.
  - rewrite decide_False by done. simpl drop. by rewrite (IH y).
Qed.

(** [runs] is a run-length encoding ... *)
Lemma runs_expand s : flat_map (fun p => replicate p.2 p.1) (runs s) = s.
Proof.
  induction s as [|c s IH]; [done|]. simpl.
  destruct (runs s) as [|[c' k] r]; simpl in *; [by rewrite <- IH|].
  destruct (decide (c = c')) as [->|Hne]; simpl; by rewrite <- IH.
Qed.

(** ... whose runs are maximal: none is empty and neighbours differ. *)
Lemma runs_maximal s :
  Forall (fun p => (1 ≤ p.2)%nat) (runs s)
  ∧ ∀ i p q, runs s !! i = Some p → runs s !! S i = Some q → p.1 ≠ q.1.
Proof.
  induction s as [|c s [IHpos IHadj]]; simpl.
  - split; [constructor|]. intros i p q H. done.
  - destruct (runs s) as [|[c' k] r] eqn:E.
    + split; [repeat constructor|]. intros [|i] p q Hp Hq; done.
    + apply Forall_cons in IHpos as [Hk Hr]. simpl in Hk.
      case_decide; subst.
      * split; [constructor; [simpl; lia|done]|].
        intros [|i] p q Hp Hq.
        -- simpl in Hp. injection Hp as <-.
           apply (IHadj O (c', k) q); done.
        -- apply (IHadj (S i) p q); done.
      * split; [repeat (constructor; [simpl; lia|]); done|].
        intros [|i] p q Hp Hq.
        -- simpl in Hp, Hq. injection Hp as <-. injection Hq as <-. done.
        -- apply (IHadj i p q); done.
Qed.

End RunsOfList.

Lemma finditer_elongation_skip (k : nat) (s : str) :
  finditer_elongation k s = finditer_elongation O (drop k s).
Proof.
  revert k. induction s as [|c s IH]; intros [|k]; simpl; auto.
Qed.

(** A run of line feeds, or of fewer than three code points, is passed
    without a match. *)
Lemma finditer_elongation_pass (c : cp) (s : str) :
  c = newline ∨ (lead c s < 2)%nat →
  finditer_elongation O (c :: s) = finditer_elongation O (drop (lead c s) s).
Proof.
  induction s as [|y s IH]; intros Hc.
  - simpl. by rewrite andb_false_r.
  - assert (Hno : negb (bool_decide (c = newline))
                  && (2 <=? lead c (y :: s))%nat = false).
    { destruct Hc as [->|Hlt].
      - by rewrite bool_decide_eq_true_2.
      - apply andb_false_intro2. by apply Nat.leb_gt. }
    cbn [finditer_elongation]. cbv zeta. rewrite Hno.
    simpl lead. simpl lead in Hc.
    destruct (decide (y = c)) as [->|Hne]; [|done].
    simpl drop. apply IH. destruct Hc as [?|?]; [by left|right; lia].
Qed.

Section Elongation.
Context `{DB : CharDB}.

Lemma elongated_total_nonneg rs : 0 ≤ elongated_total rs.
Proof.
  induction rs as [|[c k] rs IH]; [simpl; lia|].
  cbn [elongated_total]. destruct (_ && _); lia.
Qed.

(** The sum over the regular-expression matches is that total. *)
Lemma sum_elongated_finditer (s : str) (acc : Z) :
  sum_elongated acc (finditer_elongation O s)
  = Ok (acc + elongated_total (runs s)).
Proof.
  remember (length s) as n eqn:Hn. revert s acc Hn.
  induction n as [n IH] using lt_wf_ind. intros [|c s] acc Hn.
  - simpl. f_equal. lia.
  - rewrite runs_cons. pose proof (lead_le_length c s) as Hlen.
    assert (Hrec : ∀ acc', sum_elongated acc'
                     (finditer_elongation O (drop (lead c s) s))
                   = Ok (acc' + elongated_total (runs (drop (lead c s) s)))).
    { intros acc'. apply (IH (length (drop (lead c s) s))); [|done].
      rewrite length_drop. subst n. simpl. lia. }
    cbn [elongated_total].
    destruct (negb (bool_decide (c = newline)) && (2 <=? lead c s)%nat)
      eqn:Hq.
    + apply andb_prop in Hq as [Hc Hk]. apply Nat.leb_le in Hk.
      replace (3 <=? S (lead c s))%nat with true
        by (symmetry; apply Nat.leb_le; lia).
      rewrite andb_true_l.
      cbn [finditer_elongation]. cbv zeta.
      rewrite Hc, (proj2 (Nat.leb_le 2 (lead c s)) Hk), andb_true_l.
      cbv iota. cbn [sum_elongated]. rewrite getitem_0, bind_Ok.
      rewrite finditer_elongation_skip.
      destruct (isalnum c); rewrite Hrec; apply (f_equal Ok).
      * unfold Py.len. cbn [length]. rewrite length_take. lia.
      * lia.
    + rewrite finditer_elongation_pass, Hrec.
      * apply (f_equal Ok).
        replace ((3 <=? S (lead c s))%nat && isalnum c) with false; [lia|].
        symmetry. apply andb_false_iff in Hq as [Hc|Hk].
        -- apply negb_false_iff, bool_decide_eq_true in Hc. subst c.
           rewrite isalnum_newline. apply andb_false_r.
        -- apply Nat.leb_gt in Hk. apply andb_false_intro1.
           apply Nat.leb_gt. lia.
      * apply andb_false_iff in Hq as [Hc|Hk].
        -- left. by apply negb_false_iff, bool_decide_eq_true in Hc.
        -- right. by apply Nat.leb_gt in Hk.
Qed.

Lemma _has_excessive_elongation_spec (translated source : str) :
  _has_excessive_elongation translated source
  = Ok ((elongation_score translated >? 40)
        && (elongation_score translated >? elongation_score source * 3)).
Proof.
  unfold _has_excessive_elongation.
  rewrite !sum_elongated_finditer, !bind_Ok, !Z.add_0_l.
  fold (elongation_score translated). fold (elongation_score source).
  by destruct (_ && _).
Qed.

End Elongation.

(** ** The per-size check *)

Section PerSize.
Context `{DB : CharDB}.
Variable self : StammeringDetector.
Implicit Types (translated_ngrams source_ngrams : list ngram) (g : ngram).

Lemma frequency_check_total translated_ngrams source_ngrams n :
  frequency_check self translated_ngrams source_ngrams n
  = Ok (frequency_flag self translated_ngrams source_ngrams).
Proof.
  unfold frequency_check, frequency_flag.
  rewrite max_Counter, bind_Ok. unfold Py.items.
  apply for_return_true_total. intros [g c] _. simpl.
  destruct (c >=? min_repetitions self); simpl; [|done].
  destruct (n >? 1); by destruct (Py.gt_times_1_5 c _).
Qed.

Lemma frequency_flag_iff translated_ngrams source_ngrams :
  frequency_flag self translated_ngrams source_ngrams = true
  ↔ ∃ g, g ∈ translated_ngrams
       ∧ min_repetitions self ≤ occurrences g translated_ngrams
       ∧ 3 * max_frequency source_ngrams
         < 2 * occurrences g translated_ngrams.
Proof.
  unfold frequency_flag. rewrite existsb_elem_of. split.
  - intros ([g c] & Hin & Hp). simpl in Hp.
    apply Counter_spec in Hin as [Hg ->].
    apply andb_prop in Hp as [Hmin Hgt].
    exists g. unfold Py.gt_times_1_5 in Hgt. split; [done|]. lia.
  - intros (g & Hg & Hmin & Hgt).
    exists (g, occurrences g translated_ngrams). split.
    + by apply Counter_spec.
    + simpl. unfold Py.gt_times_1_5. apply andb_true_intro. split; lia.
Qed.

Lemma consecutive_check_total translated_ngrams source_ngrams :
  consecutive_check self translated_ngrams source_ngrams
  = Ok (consecutive_flag self translated_ngrams source_ngrams).
Proof.
  unfold consecutive_check, consecutive_flag.
  apply for_return_true_total. intros i _. unfold window_flag. cbv zeta.
  destruct (Z.eqb_spec
    (Py.len (Py.set (Py.slice translated_ngrams i
                       (i + min_repetitions self)))) 1) as [Hone|]; [|done].
  apply set_singleton in Hone as (g & Hg & _).
  destruct (Py.slice translated_ngrams i (i + min_repetitions self))
    as [|g' w]; [by apply elem_of_nil in Hg|].
  rewrite getitem_0, bind_Ok, _count_max_consecutive_any_spec, bind_Ok.
  rewrite _count_max_consecutive_spec.
  destruct (_ >=? _); [|done]. by destruct (_ >? _).
Qed.

(** The check fires when some window of [min_repetitions] equal n-grams
    satisfies the test on run lengths. *)
Lemma consecutive_flag_iff translated_ngrams source_ngrams :
  1 ≤ min_repetitions self →
  consecutive_flag self translated_ngrams source_ngrams = true
  ↔ ∃ g i, run_at g (Z.to_nat (min_repetitions self)) i translated_ngrams
       ∧ (Z.of_nat (longest_run_any source_ngrams) < min_repetitions self
          ∨ Z.of_nat (longest_run_any source_ngrams) * 2
            < Z.of_nat (longest_run g translated_ngrams)).
Proof.
  intros Hm. unfold consecutive_flag. rewrite existsb_elem_of.
  set (m := min_repetitions self) in *.
  assert (Hwin : ∀ i : Z, 0 ≤ i →
    Py.slice translated_ngrams i (i + m)
    = take (Z.to_nat m) (drop (Z.to_nat i) translated_ngrams)).
  { intros i Hi. apply slice_take_drop; lia. }
  split.
  - intros (i & Hi & Hflag). unfold Py.range in Hi.
    apply elem_of_seqZ in Hi. unfold Py.len in Hi.
    unfold window_flag in Hflag. cbv zeta in Hflag. fold m in Hflag.
    rewrite Hwin in Hflag by lia.
    destruct (Z.eqb_spec (Py.len (Py.set
      (take (Z.to_nat m) (drop (Z.to_nat i) translated_ngrams)))) 1)
      as [Hone|]; [|done].
    apply set_singleton in Hone as (g & Hg & Hall).
    assert (Hrun : take (Z.to_nat m) (drop (Z.to_nat i) translated_ngrams)
                   = replicate (Z.to_nat m) g).
    { symmetry. apply replicate_as_Forall. split.
      - rewrite length_take, length_drop. lia.
      - apply Forall_forall. intros x Hx. symmetry. by apply Hall. }
    exists g, (Z.to_nat i). split; [done|].
    rewrite Hrun in Hflag.
    destruct (Z.to_nat m) as [|k] eqn:Ek; [lia|]. simpl in Hflag.
    destruct (Z.geb_spec (Z.of_nat (longest_run_any source_ngrams)) m);
      [right|left]; lia.
  - intros (g & i & Hrun & Hcond). unfold run_at in Hrun.
    assert (Hlen : (i + Z.to_nat m ≤ length translated_ngrams)%nat).
    { apply (f_equal length) in Hrun.
      rewrite length_take, length_drop, length_replicate in Hrun. lia. }
    exists (Z.of_nat i). split.
    + unfold Py.range. apply elem_of_seqZ. unfold Py.len. lia.
    + unfold window_flag. cbv zeta. fold m. rewrite Hwin by lia.
      rewrite Nat2Z.id, Hrun.
      replace (Py.len (Py.set (replicate (Z.to_nat m) g)) =? 1) with true.
      2:{ symmetry. apply Z.eqb_eq, set_singleton. exists g. split.
          - apply elem_of_replicate. split; [done|lia].
          - intros x Hx. by apply elem_of_replicate in Hx as [-> _]. }
      destruct (Z.to_nat m) as [|k] eqn:Ek; [lia|]. simpl.
      destruct (Z.geb_spec (Z.of_nat (longest_run_any source_ngrams)) m);
        [|done].
      lia.
Qed.

Lemma _has_ngram_repetition_total (translated_tokens source_tokens : list str)
    (n : Z) :
  _has_ngram_repetition self translated_tokens source_tokens n
  = Ok (frequency_flag self (_get_ngrams translated_tokens n)
          (_get_ngrams source_tokens n)
        || consecutive_flag self (_get_ngrams translated_tokens n)
             (_get_ngrams source_tokens n)).
Proof.
  unfold _has_ngram_repetition. cbv zeta.
  rewrite frequency_check_total, bind_Ok.
  destruct (frequency_flag _ _ _); [done|]. apply consecutive_check_total.
Qed.

Lemma _has_phrase_repetition_total (translated source : str) :
  _has_phrase_repetition self translated source
  = Ok (existsb (ngram_flag self (_tokenize translated) (_tokenize source))
          (ngram_sizes self (_tokenize translated))).
Proof.
  unfold _has_phrase_repetition. cbv zeta.
  apply for_return_true_total. intros n _.
  apply _has_ngram_repetition_total.
Qed.

Lemma detect_total (source translated : str) :
  detect self source translated
  = Ok ((elongation_score translated >? 40)
        && (elongation_score translated >? elongation_score source * 3)
        || existsb (ngram_flag self (_tokenize translated) (_tokenize source))
             (ngram_sizes self (_tokenize translated))).
Proof.
  unfold detect.
  rewrite _has_excessive_elongation_spec, bind_Ok.
  destruct (_ && _); [done|].
  rewrite _has_phrase_repetition_total, bind_Ok. simpl.
  by destruct (existsb _ _).
Qed.

End PerSize.

(** ** The embedding on the cases of [tests/test_stammering_cases.py] *)

(** The twelve sentence pairs of the repository's test file, with the
    verdicts it expects (the two non-ASCII letters are given by their code
    points). *)
Example test_stammering_cases :
  let run source translated :=
    @detect_stammering Latin1.latin1 source translated in
  [ run (Latin1.of_string "Vorrei comprare un biglietto")
        (Latin1.of_string "I would like to buy a ticket");
    run (Latin1.of_string "Amo la musica")
        (Latin1.of_string "I love music");
    run (Latin1.of_string "Dove si trova la stazione?")
        (Latin1.of_string "Where is the station station station station?");
    run (Latin1.of_string "Sono molto molto molto molto felice")
        (Latin1.of_string "I am very happy");
    run (Latin1.of_string "Posso aiutarti?")
        (Latin1.of_string "Can I help you??");
    run (Latin1.of_string "Sono affamato")
        (Latin1.of_string "I'm hungry");
    run (Latin1.of_string "Sono cos" ++ [236%N] ++ Latin1.of_string " stanco")
        (Latin1.of_string "I'm sooo tired");
    run (Latin1.of_string "ciao")
        (Latin1.of_string "bye bye");
    run (Latin1.of_string "ciao ciao ciao ciao")
        (Latin1.of_string "bye bye bye bye");
    run (Latin1.of_string "ciao ciao")
        (Latin1.of_string "bye bye bye bye bye bye bye bye bye bye bye");
    run (Latin1.of_string "Questo " ++ [232%N]
           ++ Latin1.of_string " veramente l'ultimo test")
        (Latin1.of_string "This is really the is really the is really the"
           ++ Latin1.of_string " is really the last test");
    run (Latin1.of_string "Mi piace moooooooolto il cibo italiano")
        (Latin1.of_string "I like Italian food s" ++ replicate 150 111%N) ]
  = [ Ok false; Ok false; Ok true; Ok false; Ok false; Ok false; Ok false;
      Ok false; Ok false; Ok true; Ok true; Ok true ].
Proof. vm_compute. reflexivity. Qed.

(** The scan for [(.)\1{2,}]: maximal runs, case-sensitive, no line feeds. *)
Example finditer_elongation_cases :
  finditer_elongation O (Latin1.of_string "sooo good!!!!")
  = [Latin1.of_string "ooo"; Latin1.of_string "!!!!"]
  ∧ finditer_elongation O (Latin1.of_string "aabbbAAAa")
    = [Latin1.of_string "bbb"; Latin1.of_string "AAA"]
  ∧ finditer_elongation O
      (Latin1.of_string "a" ++ replicate 4 newline ++ Latin1.of_string "bb")
    = []
  ∧ finditer_elongation O (Latin1.of_string "") = [].
Proof. vm_compute. repeat split. Qed.

(** [_tokenize] and [_get_ngrams]. *)
Example _tokenize_cases :
  @_tokenize Latin1.latin1 (Latin1.of_string "  Where IS  the Station? ")
  = [Latin1.of_string "where"; Latin1.of_string "is"; Latin1.of_string "the";
     Latin1.of_string "station?"]
  ∧ @_tokenize Latin1.latin1 (Latin1.of_string "") = []
  ∧ _get_ngrams
      [Latin1.of_string "a"; Latin1.of_string "b"; Latin1.of_string "c"] 2
    = [[Latin1.of_string "a"; Latin1.of_string "b"];
       [Latin1.of_string "b"; Latin1.of_string "c"]]
  ∧ _get_ngrams
      [Latin1.of_string "a"; Latin1.of_string "b"; Latin1.of_string "c"] 4
    = [].
Proof. vm_compute. repeat split. Qed.

(** ** Totality *)

Lemma _get_ngrams_short (tokens : list str) (n : Z) :
  Py.len tokens < n → _get_ngrams tokens n = [].
Proof.
  intros H. unfold _get_ngrams, Py.range. by rewrite seqZ_nil by lia.
Qed.

(** C6.  [detect] never raises: for every detector and every pair of
    strings (empty ones and texts shorter than an n-gram size included) it
    returns a boolean.  On the way, the n-grams of a token list shorter than
    [n] are the empty sequence, and the longest run of an empty n-gram
    sequence is [0], not an error. *)
Theorem detect_never_raises `{DB : CharDB} :
  (∀ (self : StammeringDetector) (source translated : str),
     ∃ b : bool, detect self source translated = Ok b)
  ∧ (∀ source translated : str,
       ∃ b : bool, detect_stammering source translated = Ok b)
  ∧ (∀ (tokens : list str) (n : Z),
       Py.len tokens < n → _get_ngrams tokens n = [])
  ∧ _count_max_consecutive_any [] = Ok 0
  ∧ (∀ (self : StammeringDetector) (tokens : list str) (n : Z),
       ∃ b : bool, _has_ngram_repetition self tokens [] n = Ok b).
Proof.
  split; [|split; [|split; [|split]]].
  - intros self source translated. eexists. apply detect_total.
  - intros source translated. eexists. apply detect_total.
  - apply _get_ngrams_short.
  - reflexivity.
  - intros self tokens n. eexists. apply _has_ngram_repetition_total.
Qed.

Lemma detect_never_raises_witness :
  Py.len [[98; 121; 101]%N] < 2
  ∧ _get_ngrams [[98; 121; 101]%N] 2 = []
  ∧ ∃ b : bool, @detect_stammering Latin1.latin1 [] [98; 121; 101]%N = Ok b.
Proof.
  split; [reflexivity|]. split.
  - apply (proj1 (proj2 (proj2 (@detect_never_raises Latin1.latin1)))).
    reflexivity.
  - apply (proj1 (proj2 (@detect_never_raises Latin1.latin1))).
Defined.

(** ** The order of the checks *)

Lemma tested_elem_of {A} (test : A → result bool) (l : list A) (x : A) :
  x ∈ tested test l → x ∈ l.
Proof.
  induction l as [|y l IH]; simpl; [done|].
  rewrite !elem_of_cons. intros [->|H]; [by left|right].
  destruct (test y) as [[|]|]; try (by apply elem_of_nil in H). by apply IH.
Qed.

Lemma tested_all {A} (test : A → result bool) (l : list A) :
  Py.for_return_true test l = Ok false → tested test l = l.
Proof.
  induction l as [|y l IH]; simpl; [done|].
  destruct (test y) as [[|]|]; simpl; try done.
  intros H. by rewrite IH.
Qed.

Lemma ngram_sizes_detector (tokens : list str) :
  ngram_sizes detector tokens = seqZ 1 (Z.min 5 (Py.len tokens - 1)).
Proof.
  unfold ngram_sizes, Py.range, detector. cbn [max_ngram_size].
  f_equal. lia.
Qed.

Lemma elem_of_ngram_sizes (tokens : list str) (n : Z) :
  n ∈ ngram_sizes detector tokens ↔ 1 ≤ n ≤ Z.min 5 (Py.len tokens - 1).
Proof. rewrite ngram_sizes_detector, elem_of_seqZ. lia. Qed.

Lemma occurrences_le_len `{EqDecision K} (x : K) (l : list K) :
  occurrences x l ≤ Py.len l.
Proof.
  unfold Py.len. induction l as [|y l IH]; simpl; [lia|]. case_decide; lia.
Qed.

Lemma len_get_ngrams (tokens : list str) (n : Z) :
  Py.len (_get_ngrams tokens n) = Z.max 0 (Py.len tokens - n + 1).
Proof.
  unfold _get_ngrams, Py.range, Py.len.
  rewrite length_fmap, length_seqZ. lia.
Qed.

(** A size that the token list does not exceed cannot fire: there is at
    most one n-gram of that size. *)
Lemma ngram_flag_short `{DB : CharDB} (translated_tokens source_tokens : list str)
    (n : Z) :
  Py.len translated_tokens ≤ n →
  ngram_flag detector translated_tokens source_tokens n = false.
Proof.
  intros Hn. unfold ngram_flag.
  pose proof (len_get_ngrams translated_tokens n) as Hlen.
  apply orb_false_intro; apply not_true_is_false.
  - rewrite frequency_flag_iff. intros (g & _ & Hocc & _).
    pose proof (occurrences_le_len g (_get_ngrams translated_tokens n)).
    simpl in Hocc. lia.
  - rewrite consecutive_flag_iff by done. intros (g & i & Hrun & _).
    unfold run_at in Hrun. apply (f_equal length) in Hrun.
    rewrite length_take, length_drop, length_replicate in Hrun.
    change (Z.to_nat (min_repetitions detector)) with 3%nat in Hrun.
    unfold Py.len in *. lia.
Qed.

Lemma for_return_true_iff {A} (test : A → result bool) (f : A → bool)
    (l : list A) :
  (∀ x, test x = Ok (f x)) →
  Py.for_return_true test l = Ok true ↔ ∃ x, x ∈ l ∧ test x = Ok true.
Proof.
  intros H. rewrite (for_return_true_total test f) by auto.
  split.
  - intros [= Hex]. apply existsb_elem_of in Hex as (x & Hx & Hfx).
    exists x. split; [done|]. by rewrite H, Hfx.
  - intros (x & Hx & Htx). f_equal. apply existsb_elem_of.
    exists x. split; [done|]. rewrite H in Htx. by injection Htx.
Qed.

Lemma _has_ngram_repetition_iff `{DB : CharDB} (self : StammeringDetector)
    (translated_tokens source_tokens : list str) (n : Z) :
  _has_ngram_repetition self translated_tokens source_tokens n = Ok true
  ↔ frequency_check self (_get_ngrams translated_tokens n)
      (_get_ngrams source_tokens n) n = Ok true
    ∨ consecutive_check self (_get_ngrams translated_tokens n)
        (_get_ngrams source_tokens n) = Ok true.
Proof.
  unfold _has_ngram_repetition. cbv zeta.
  rewrite frequency_check_total, consecutive_check_total, bind_Ok.
  destruct (frequency_flag _ _ _); [naive_solver|].
  destruct (consecutive_flag _ _ _); naive_solver.
Qed.

Lemma _has_phrase_repetition_iff `{DB : CharDB} (self : StammeringDetector)
    (translated source : str) :
  _has_phrase_repetition self translated source = Ok true
  ↔ ∃ n, n ∈ ngram_sizes self (_tokenize translated)
       ∧ _has_ngram_repetition self (_tokenize translated)
           (_tokenize source) n = Ok true.
Proof.
  unfold _has_phrase_repetition. cbv zeta.
  apply (for_return_true_iff _
           (ngram_flag self (_tokenize translated) (_tokenize source))).
  intros n. apply _has_ngram_repetition_total.
Qed.

Lemma detect_iff `{DB : CharDB} (self : StammeringDetector)
    (source translated : str) :
  detect self source translated = Ok true
  ↔ _has_excessive_elongation translated source = Ok true
    ∨ _has_phrase_repetition self translated source = Ok true.
Proof.
  unfold detect.
  rewrite _has_excessive_elongation_spec, _has_phrase_repetition_total.
  rewrite bind_Ok. destruct (_ && _); simpl; [naive_solver|].
  destruct (existsb _ _); naive_solver.
Qed.

(** In [result] the loop written for any monad is [Py.for_return_true]. *)
Lemma for_return_true_body_result {A} (test : A → result bool) (l : list A) :
  for_return_true_body test l = Py.for_return_true test l.
Proof.
  induction l as [|x l IH]; [done|]. simpl.
  destruct (test x) as [[|]|e]; simpl; [done| |done]. exact IH.
Qed.

Lemma traced_bind_pair {A B} (f : A → traced B) (t : list check)
    (r : result A) :
  mbind f ((t, r) : traced A)
  = match r with
    | Ok a => (t ++ (f a).1, (f a).2)
    | Raise e => (t, Raise e)
    end.
Proof. reflexivity. Qed.

(** Run with a trace, the loop lists the items it tests and returns what
    the loop returns. *)
Lemma for_return_true_body_traced {A} (f : A → check)
    (test : A → result bool) (l : list A) :
  for_return_true_body (M := traced) (fun x => enter (f x) (test x)) l
  = (f <$> tested test l, Py.for_return_true test l).
Proof.
  induction l as [|x l IH]; [done|].
  cbn [for_return_true_body tested Py.for_return_true].
  change (enter (f x) (test x)) with (([f x], test x) : traced bool).
  rewrite traced_bind_pair.
  destruct (test x) as [[|]|e]; [done| |done].
  rewrite IH. done.
Qed.

Lemma detect_body_result (elongation phrase_repetition : result bool) :
  detect_body elongation phrase_repetition
  = match elongation with
    | Ok true => Ok true
    | Ok false =>
        match phrase_repetition with
        | Ok repeated => Ok repeated
        | Raise e => Raise e
        end
    | Raise e => Raise e
    end.
Proof.
  destruct elongation as [[|]|e]; [done| |done].
  by destruct phrase_repetition as [[|]|e].
Qed.

Lemma detect_body_traced (c : check) (elongation : result bool)
    (phrase_repetition : traced bool) :
  detect_body (enter c elongation) phrase_repetition
  = match elongation with
    | Ok true => ([c], Ok true)
    | Ok false =>
        (c :: phrase_repetition.1,
         match phrase_repetition.2 with
         | Ok repeated => Ok repeated
         | Raise e => Raise e
         end)
    | Raise e => ([c], Raise e)
    end.
Proof.
  unfold detect_body, enter. rewrite traced_bind_pair.
  destruct elongation as [[|]|e]; [done| |done].
  destruct phrase_repetition as [t [[|]|e]]; rewrite traced_bind_pair;
    cbn; by rewrite ?app_nil_r.
Qed.

Lemma detect_traced_unfold `{DB : CharDB} (self : StammeringDetector)
    (source translated : str) :
  detect_traced self source translated
  = match _has_excessive_elongation translated source with
    | Ok true => ([Elongation], Ok true)
    | Ok false =>
        (Elongation ::
           (Ngram <$>
              tested
                (fun n => _has_ngram_repetition self (_tokenize translated)
                            (_tokenize source) n)
                (ngram_sizes self (_tokenize translated))),
         match _has_phrase_repetition self translated source with
         | Ok repeated => Ok repeated
         | Raise e => Raise e
         end)
    | Raise e => ([Elongation], Raise e)
    end.
Proof.
  unfold detect_traced. cbv zeta.
  by rewrite detect_body_traced, for_return_true_body_traced.
Qed.

(** C1.  [detect] returns [True] exactly when the elongation check fires
    or the per-size repetition check fires at one of the sizes of the loop
    (equivalently, at one of the sizes 1..5: a size the loop leaves out
    cannot fire).  [detect] is the control flow [detect_body] run on the
    elongation check and on the loop over the sizes; in that control flow
    the elongation check comes first and decides alone when it returns
    [True] or raises, whatever the second computation is, even one that
    would raise.  Run with a trace, the same control flow returns what
    [detect] returns and lists the checks entered: the elongation check is
    the first, it is the only one when it returns [True], and otherwise the
    per-size checks follow in order up to the first that fires. *)
Theorem detect_elongation_or_repetition `{DB : CharDB}
    (source translated : str) :
  let translated_tokens := _tokenize translated in
  let source_tokens := _tokenize source in
  let per_size n :=
    _has_ngram_repetition detector translated_tokens source_tokens n in
  (detect_stammering source translated = Ok true
   ↔ _has_excessive_elongation translated source = Ok true
     ∨ ∃ n, n ∈ ngram_sizes detector translated_tokens
          ∧ _has_ngram_repetition detector translated_tokens source_tokens n
            = Ok true)
  ∧ (detect_stammering source translated = Ok true
     ↔ _has_excessive_elongation translated source = Ok true
       ∨ ∃ n, 1 ≤ n ≤ 5
            ∧ _has_ngram_repetition detector translated_tokens
                source_tokens n = Ok true)
  ∧ (∃ rest, checks_run detector source translated = Elongation :: rest)
  ∧ (_has_excessive_elongation translated source = Ok true
     → checks_run detector source translated = [Elongation])
  ∧ detect_stammering source translated
    = detect_body (_has_excessive_elongation translated source)
        (for_return_true_body per_size
           (ngram_sizes detector translated_tokens))
  ∧ (∀ phrase_repetition : result bool,
       detect_body (Ok true) phrase_repetition = Ok true)
  ∧ (∀ (e : exn) (phrase_repetition : result bool),
       detect_body (Raise e) phrase_repetition = Raise e)
  ∧ (detect_traced detector source translated).2
    = detect_stammering source translated
  ∧ (_has_excessive_elongation translated source = Ok false
     → checks_run detector source translated
       = Elongation ::
           (Ngram <$>
              tested per_size (ngram_sizes detector translated_tokens))).
Proof.
  intros tt st per_size.
  assert (Hiff : detect_stammering source translated = Ok true
    ↔ _has_excessive_elongation translated source = Ok true
      ∨ ∃ n, n ∈ ngram_sizes detector tt
           ∧ _has_ngram_repetition detector tt st n = Ok true).
  { unfold detect_stammering.
    by rewrite detect_iff, _has_phrase_repetition_iff. }
  split; [exact Hiff|]. split.
  { rewrite Hiff. split.
    + intros [He|(n & Hn & Hrep)]; [by left|right].
      exists n. split; [|done]. apply elem_of_ngram_sizes in Hn. lia.
    + intros [He|(n & Hn & Hrep)]; [by left|right].
      exists n. split; [|done]. apply elem_of_ngram_sizes.
      destruct (Z_le_gt_dec (Py.len tt) n) as [Hshort|Hlong]; [|lia].
      rewrite _has_ngram_repetition_total in Hrep.
      fold (ngram_flag detector tt st n) in Hrep.
      by rewrite (ngram_flag_short tt st n Hshort) in Hrep. }
  assert (Hphrase : Py.for_return_true per_size (ngram_sizes detector tt)
                    = _has_phrase_repetition detector translated source)
    by reflexivity.
  assert (Hbody : detect_stammering source translated
    = match _has_excessive_elongation translated source with
      | Ok true => Ok true
      | Ok false =>
          match _has_phrase_repetition detector translated source with
          | Ok repeated => Ok repeated
          | Raise e => Raise e
          end
      | Raise e => Raise e
      end).
  { unfold detect_stammering, detect.
    destruct (_has_excessive_elongation translated source) as [[|]|e];
      [done| |done].
    by destruct (_has_phrase_repetition detector translated source)
      as [[|]|e]. }
  unfold checks_run. rewrite detect_traced_unfold. fold tt st per_size.
  split; [|split; [|split; [|split; [|split; [|split]]]]].
  - destruct (_has_excessive_elongation translated source) as [[|]|e];
      by eexists.
  - by intros ->.
  - by rewrite for_return_true_body_result, detect_body_result, Hphrase.
  - done.
  - done.
  - rewrite Hbody.
    by destruct (_has_excessive_elongation translated source) as [[|]|e].
  - by intros ->.
Qed.

Lemma detect_elongation_or_repetition_witness :
  let so := Latin1.of_string "so" in
  let sooo :=
    Latin1.of_string "soooooooooooooooooooooooooooooooooooooooooooo" in
  let ciao := Latin1.of_string "ciao" in
  let bye3 := Latin1.of_string "hello bye bye bye" in
  @_has_excessive_elongation Latin1.latin1 sooo so = Ok true
  ∧ @checks_run Latin1.latin1 detector so sooo = [Elongation]
  ∧ @_has_excessive_elongation Latin1.latin1 bye3 ciao = Ok false
  ∧ @checks_run Latin1.latin1 detector ciao bye3 = [Elongation; Ngram 1].
Proof.
  intros so sooo ciao bye3.
  assert (H1 : @_has_excessive_elongation Latin1.latin1 sooo so = Ok true)
    by (vm_compute; reflexivity).
  assert (H2 : @_has_excessive_elongation Latin1.latin1 bye3 ciao = Ok false)
    by (vm_compute; reflexivity).
  split; [exact H1|]. split.
  - exact (proj1 (proj2 (proj2 (proj2
      (@detect_elongation_or_repetition Latin1.latin1 so sooo)))) H1).
  - split; [exact H2|].
    rewrite (proj2 (proj2 (proj2 (proj2 (proj2 (proj2 (proj2 (proj2
      (@detect_elongation_or_repetition Latin1.latin1 ciao bye3))))))))
      H2).
    vm_compute. reflexivity.
Defined.

(** C5.  The loop of the phrase-repetition stage ranges over the sizes
    [1 ≤ n ≤ min(5, t - 1)], in increasing order, [t] being the number of
    translated tokens: the stage fires exactly when the per-size check fires
    at one of them, it runs the check at no other size, and at each of them
    when none fires.  The size [t] itself is never among them, and with a
    single token there is none, so that the stage returns [False] and
    [detect] is the elongation check. *)
Theorem ngram_sizes_examined `{DB : CharDB} (source translated : str) :
  let translated_tokens := _tokenize translated in
  let source_tokens := _tokenize source in
  let t := Py.len translated_tokens in
  let per_size n :=
    _has_ngram_repetition detector translated_tokens source_tokens n in
  (∀ n, n ∈ ngram_sizes detector translated_tokens
        ↔ 1 ≤ n ≤ Z.min 5 (t - 1))
  ∧ ngram_sizes detector translated_tokens = seqZ 1 (Z.min 5 (t - 1))
  ∧ (_has_phrase_repetition detector translated source = Ok true
     ↔ ∃ n, 1 ≤ n ≤ Z.min 5 (t - 1) ∧ per_size n = Ok true)
  ∧ (∀ n, n ∈ tested per_size (ngram_sizes detector translated_tokens)
          → 1 ≤ n ≤ Z.min 5 (t - 1))
  ∧ (_has_phrase_repetition detector translated source = Ok false
     → tested per_size (ngram_sizes detector translated_tokens)
       = seqZ 1 (Z.min 5 (t - 1)))
  ∧ (t ∉ ngram_sizes detector translated_tokens)
  ∧ (t = 1
     → ngram_sizes detector translated_tokens = []
       ∧ _has_phrase_repetition detector translated source = Ok false
       ∧ detect_stammering source translated
         = _has_excessive_elongation translated source).
Proof.
  intros tt st t per_size.
  split; [apply elem_of_ngram_sizes|].
  split; [apply ngram_sizes_detector|].
  split; [|split; [|split; [|split]]].
  - rewrite _has_phrase_repetition_iff. fold tt st.
    by setoid_rewrite elem_of_ngram_sizes.
  - intros n Hn. apply tested_elem_of in Hn.
    by apply elem_of_ngram_sizes in Hn.
  - intros Hfalse. unfold t. rewrite <- ngram_sizes_detector.
    by apply tested_all.
  - rewrite elem_of_ngram_sizes. fold t. lia.
  - intros Ht.
    assert (Hnil : ngram_sizes detector tt = []).
    { rewrite ngram_sizes_detector. fold t. rewrite Ht. done. }
    split; [done|].
    assert (Hrep : _has_phrase_repetition detector translated source
                   = Ok false).
    { unfold _has_phrase_repetition. cbv zeta. fold tt. by rewrite Hnil. }
    split; [done|].
    unfold detect_stammering, detect. rewrite Hrep.
    rewrite _has_excessive_elongation_spec, !bind_Ok.
    by destruct (_ && _).
Qed.

Lemma ngram_sizes_examined_witness :
  Py.len (@_tokenize Latin1.latin1 (Latin1.of_string "byebyebye")) = 1
  ∧ @detect_stammering Latin1.latin1 (Latin1.of_string "ciao")
      (Latin1.of_string "byebyebye")
    = @_has_excessive_elongation Latin1.latin1
        (Latin1.of_string "byebyebye") (Latin1.of_string "ciao").
Proof.
  split; [vm_compute; reflexivity|].
  apply (proj2 (proj2 (proj2 (proj2 (proj2 (proj2
    (@ngram_sizes_examined Latin1.latin1 (Latin1.of_string "ciao")
       (Latin1.of_string "byebyebye")))))))).
  vm_compute. reflexivity.
Defined.

(** ** The elongation rule *)

(** C4.  The elongation check fires exactly when the score of the
    translation exceeds 40 and three times the score of the source.  The
    score of a text is the total length of the maximal runs, in the
    lowercased text, of three or more copies of an alphanumeric code point
    ([runs] is the run-length encoding of the text, see [runs_expand] and
    [runs_maximal]); it is what the sum over the regular-expression matches
    computes, each text on its own, and it is [0] for the empty text. *)
Theorem elongation_check_rule `{DB : CharDB} (source translated : str) :
  (_has_excessive_elongation translated source = Ok true
   ↔ elongation_score translated > 40
     ∧ elongation_score translated > elongation_score source * 3)
  ∧ (∀ text : str,
       sum_elongated 0 (finditer_elongation O (lower text))
       = Ok (elongation_score text))
  ∧ (∀ text : str,
       elongation_score text = elongated_total (runs (lower text)))
  ∧ (∀ (c : cp) (k : nat) (rs : list (cp * nat)),
       elongated_total ((c, k) :: rs)
       = (if (3 <=? k)%nat && isalnum c then Z.of_nat k else 0)
         + elongated_total rs)
  ∧ elongation_score [] = 0
  ∧ (_has_excessive_elongation translated source = Ok true
     → detect_stammering source translated = Ok true).
Proof.
  split; [|split; [|split; [|split; [|split]]]].
  - rewrite _has_excessive_elongation_spec. split.
    + intros [= H]. apply andb_prop in H as [H1 H2]. lia.
    + intros [H1 H2]. f_equal. apply andb_true_intro. split; lia.
  - intros text. rewrite sum_elongated_finditer. f_equal.
  - done.
  - done.
  - done.
  - intros H. apply detect_iff. by left.
Qed.

Lemma elongation_check_rule_witness :
  @_has_excessive_elongation Latin1.latin1
    (Latin1.of_string "I like fooooooooooooooooooooooooooooooooooooooooood")
    (Latin1.of_string "Mi piace moooooooolto il cibo") = Ok true
  ∧ @detect_stammering Latin1.latin1
      (Latin1.of_string "Mi piace moooooooolto il cibo")
      (Latin1.of_string "I like fooooooooooooooooooooooooooooooooooooooooood")
    = Ok true.
Proof.
  split; [vm_compute; reflexivity|].
  apply (proj2 (proj2 (proj2 (proj2 (proj2
    (@elongation_check_rule Latin1.latin1
       (Latin1.of_string "Mi piace moooooooolto il cibo")
       (Latin1.of_string
          "I like fooooooooooooooooooooooooooooooooooooooooood"))))))).
  vm_compute. reflexivity.
Defined.

(** ** The frequency rule *)

Lemma gt_times_1_5_Q (c m : Z) :
  Py.gt_times_1_5 c m = true ↔ (inject_Z m * 1.5 < inject_Z c)%Q.
Proof.
  unfold Py.gt_times_1_5, Qlt. simpl. rewrite Z.ltb_lt. lia.
Qed.

Lemma for_return_true_ext {A} (test test' : A → result bool) (l : list A) :
  (∀ x, test x = test' x) →
  Py.for_return_true test l = Py.for_return_true test' l.
Proof.
  intros H. induction l as [|x l IH]; simpl; [done|]. by rewrite H, IH.
Qed.

Lemma collapsed_frequency_check `{DB : CharDB} (self : StammeringDetector)
    (translated_ngrams source_ngrams : list ngram) (n : Z) :
  Collapsed.frequency_check self translated_ngrams source_ngrams
  = frequency_check self translated_ngrams source_ngrams n.
Proof.
  unfold Collapsed.frequency_check, frequency_check. cbv zeta.
  rewrite max_Counter, !bind_Ok.
  apply for_return_true_ext. intros [g c].
  destruct (c >=? min_repetitions self); simpl; [|done].
  by destruct (n >? 1).
Qed.

Lemma collapsed_detect `{DB : CharDB} (self : StammeringDetector)
    (source translated : str) :
  Collapsed.detect self source translated = detect self source translated.
Proof.
  unfold Collapsed.detect, detect.
  assert (Collapsed._has_phrase_repetition self translated source
          = _has_phrase_repetition self translated source) as ->; [|done].
  unfold Collapsed._has_phrase_repetition, _has_phrase_repetition.
  cbv zeta. apply for_return_true_ext. intros n.
  unfold Collapsed._has_ngram_repetition, _has_ngram_repetition. cbv zeta.
  by rewrite (collapsed_frequency_check self _ _ n).
Qed.

(** C2.  At every n-gram size, the frequency check fires exactly when some
    translated n-gram occurs [c] times with [c ≥ 3] and
    [c > max_source_freq * 1.5], where [max_source_freq] is the largest
    number of occurrences of a source n-gram of that size, and [0] when
    there is none.  When it fires at a size of the loop, [detect] returns
    [True].  The size plays no part in the rule: the detector with the two
    branches collapsed into one returns what the original returns. *)
Theorem frequency_check_rule `{DB : CharDB} (source translated : str)
    (n : Z) :
  let translated_ngrams := _get_ngrams (_tokenize translated) n in
  let source_ngrams := _get_ngrams (_tokenize source) n in
  let max_source_freq := max_frequency source_ngrams in
  (frequency_check detector translated_ngrams source_ngrams n = Ok true
   ↔ ∃ g, g ∈ translated_ngrams
        ∧ 3 ≤ occurrences g translated_ngrams
        ∧ (inject_Z max_source_freq * 1.5
           < inject_Z (occurrences g translated_ngrams))%Q)
  ∧ (∀ g c, (g, c) ∈ Py.items (Py.Counter translated_ngrams)
            ↔ g ∈ translated_ngrams ∧ c = occurrences g translated_ngrams)
  ∧ (∀ g, occurrences g source_ngrams ≤ max_source_freq)
  ∧ (source_ngrams ≠ []
     → ∃ g, g ∈ source_ngrams ∧ occurrences g source_ngrams = max_source_freq)
  ∧ (source_ngrams = [] → max_source_freq = 0)
  ∧ (n ∈ ngram_sizes detector (_tokenize translated)
     → frequency_check detector translated_ngrams source_ngrams n = Ok true
     → detect_stammering source translated = Ok true)
  ∧ (∀ source' translated' : str,
       Collapsed.detect detector source' translated'
       = detect_stammering source' translated').
Proof.
  intros tr src msf.
  split; [|split; [|split; [|split; [|split; [|split]]]]].
  - rewrite frequency_check_total. split.
    + intros [= H]. apply frequency_flag_iff in H as (g & Hg & Hmin & Hgt).
      exists g. split; [done|]. split; [simpl in Hmin; lia|].
      apply gt_times_1_5_Q. unfold Py.gt_times_1_5. apply Z.ltb_lt.
      fold src in Hgt. fold msf in Hgt. done.
    + intros (g & Hg & Hmin & Hgt). f_equal. apply frequency_flag_iff.
      exists g. split; [done|]. split; [simpl; lia|].
      apply gt_times_1_5_Q in Hgt. unfold Py.gt_times_1_5 in Hgt.
      by apply Z.ltb_lt in Hgt.
  - intros g c. apply Counter_spec.
  - apply max_frequency_spec.
  - apply max_frequency_spec.
  - unfold msf. by intros ->.
  - intros Hn Hfreq. apply detect_iff. right.
    apply _has_phrase_repetition_iff. exists n. split; [done|].
    unfold _has_ngram_repetition. cbv zeta. fold tr src. by rewrite Hfreq.
  - intros source' translated'. apply collapsed_detect.
Qed.

Lemma frequency_check_rule_witness :
  let source := Latin1.of_string "ciao ciao" in
  let translated := Latin1.of_string "bye bye bye bye" in
  1 ∈ ngram_sizes detector (@_tokenize Latin1.latin1 translated)
  ∧ frequency_check detector
      (_get_ngrams (@_tokenize Latin1.latin1 translated) 1)
      (_get_ngrams (@_tokenize Latin1.latin1 source) 1) 1 = Ok true
  ∧ @detect_stammering Latin1.latin1 source translated = Ok true.
Proof.
  intros source translated.
  assert (H1 : 1 ∈ ngram_sizes detector (@_tokenize Latin1.latin1 translated)).
  { apply elem_of_ngram_sizes. vm_compute. split; discriminate. }
  assert (H2 : frequency_check detector
      (_get_ngrams (@_tokenize Latin1.latin1 translated) 1)
      (_get_ngrams (@_tokenize Latin1.latin1 source) 1) 1 = Ok true).
  { vm_compute. reflexivity. }
  split; [exact H1|]. split; [exact H2|].
  exact (proj1 (proj2 (proj2 (proj2 (proj2 (proj2
    (@frequency_check_rule Latin1.latin1 source translated 1)))))) H1 H2).
Defined.

(** ** A concrete sentence pair *)

(** C9.  On "ciao ciao ciao ciao" and "bye bye bye bye", [detect] returns
    [False].  At size 1 the translated unigram occurs 4 times, which does
    not exceed [4 * 1.5 = 6]; its run of 4 does not exceed [4 * 2 = 8], the
    source having a run of 4 itself. *)
Theorem ciao_bye_not_flagged :
  let source := Latin1.of_string "ciao ciao ciao ciao" in
  let translated := Latin1.of_string "bye bye bye bye" in
  let bye : ngram := [Latin1.of_string "bye"] in
  let translated_ngrams := _get_ngrams (@_tokenize Latin1.latin1 translated) 1 in
  let source_ngrams := _get_ngrams (@_tokenize Latin1.latin1 source) 1 in
  @detect_stammering Latin1.latin1 source translated = Ok false
  ∧ Py.items (Py.Counter translated_ngrams) = [(bye, 4)]
  ∧ Py.max (Py.values (Py.Counter source_ngrams)) = Ok 4
  ∧ (inject_Z 4 * 1.5 == 6)%Q
  ∧ Py.gt_times_1_5 4 4 = false
  ∧ frequency_check detector translated_ngrams source_ngrams 1 = Ok false
  ∧ _count_max_consecutive translated_ngrams bye = 4
  ∧ _count_max_consecutive_any source_ngrams = Ok 4
  ∧ (4 >? 4 * 2) = false
  ∧ consecutive_check detector translated_ngrams source_ngrams = Ok false.
Proof. vm_compute. repeat split. Qed.

(** ** Identical sentences *)

Lemma max_frequency_nonneg `{EqDecision K} (l : list K) : 0 ≤ max_frequency l.
Proof.
  destruct (max_frequency_spec l) as [Hub _].
  destruct l as [|x l]; [done|].
  specialize (Hub x). pose proof (occurrences_nonneg x (x :: l)). lia.
Qed.

(** With the same n-grams on both sides neither check of a size fires. *)
Lemma ngram_flag_same `{DB : CharDB} (self : StammeringDetector)
    (tokens : list str) (n : Z) :
  1 ≤ min_repetitions self → ngram_flag self tokens tokens n = false.
Proof.
  intros Hm. unfold ngram_flag.
  apply orb_false_intro; apply not_true_is_false.
  - rewrite frequency_flag_iff. intros (g & _ & _ & Hgt).
    destruct (max_frequency_spec (_get_ngrams tokens n)) as [Hub _].
    specialize (Hub g).
    pose proof (max_frequency_nonneg (_get_ngrams tokens n)). lia.
  - rewrite consecutive_flag_iff by done. intros (g & i & Hrun & Hcond).
    apply longest_run_bound in Hrun.
    pose proof (longest_run_le_any g (_get_ngrams tokens n)). lia.
Qed.

(** C10.  A sentence given as its own translation is never flagged.  The
    two elongation scores are equal, so the elongation check does not fire.
    At every size the n-grams are the same on both sides: no n-gram occurs
    more often than the most frequent one, so the frequency check does not
    fire; a window of three equal n-grams makes the longest run at least 3,
    and no run of a value is longer than the longest run, so the
    consecutive-run check does not fire. *)
Theorem identity_never_flagged `{DB : CharDB} (s : str) :
  detect_stammering s s = Ok false
  ∧ _has_excessive_elongation s s = Ok false
  ∧ (∀ n : Z,
       let ngrams := _get_ngrams (_tokenize s) n in
       frequency_check detector ngrams ngrams n = Ok false
       ∧ (∀ g, occurrences g ngrams ≤ max_frequency ngrams)
       ∧ (∀ g i, run_at g 3 i ngrams → (3 ≤ longest_run_any ngrams)%nat)
       ∧ (∀ g, (longest_run g ngrams ≤ longest_run_any ngrams)%nat)
       ∧ consecutive_check detector ngrams ngrams = Ok false).
Proof.
  assert (Hscore : (elongation_score s >? 40)
                   && (elongation_score s >? elongation_score s * 3) = false).
  { pose proof (elongated_total_nonneg (runs (lower s))) as Hpos.
    fold (elongation_score s) in Hpos.
    apply not_true_is_false. intros H. apply andb_prop in H as [_ H]. lia. }
  split; [|split].
  - unfold detect_stammering. rewrite detect_total, Hscore. f_equal.
    apply not_true_is_false. intros H.
    apply existsb_elem_of in H as (n & _ & Hflag).
    by rewrite ngram_flag_same in Hflag.
  - by rewrite _has_excessive_elongation_spec, Hscore.
  - intros n ngrams.
    pose proof (ngram_flag_same detector (_tokenize s) n) as Hsame.
    unfold ngram_flag in Hsame. fold ngrams in Hsame.
    apply orb_false_elim in Hsame as [Hfreq Hcons]; [|done].
    split; [by rewrite frequency_check_total, Hfreq|].
    split; [apply max_frequency_spec|].
    split.
    { intros g i Hrun. apply longest_run_bound in Hrun.
      pose proof (longest_run_le_any g ngrams). lia. }
    split; [intros g; apply longest_run_le_any|].
    by rewrite consecutive_check_total, Hcons.
Qed.

Lemma identity_never_flagged_witness :
  let s := Latin1.of_string "bye bye bye" in
  let bye : ngram := [Latin1.of_string "bye"] in
  run_at bye 3 0 (_get_ngrams (@_tokenize Latin1.latin1 s) 1)
  ∧ (3 ≤ longest_run_any (_get_ngrams (@_tokenize Latin1.latin1 s) 1))%nat.
Proof.
  intros s bye.
  assert (H : run_at bye 3 0 (_get_ngrams (@_tokenize Latin1.latin1 s) 1))
    by (vm_compute; reflexivity).
  split; [exact H|].
  exact (proj1 (proj2 (proj2
    (proj2 (proj2 (@identity_never_flagged Latin1.latin1 s)) 1))) bye O H).
Defined.

(** ** The consecutive-run rule *)

(** C3, as first stated, fails when two values fill windows: here the run
    of "a" (3) does not exceed twice the longest source run (3), yet the
    check fires, on the run of "b" (7); the frequency check does not fire,
    and [detect] returns [True]. *)
Lemma single_value_rule_fails :
  let source := Latin1.of_string "x x x y x x x" in
  let translated := Latin1.of_string "a a a b b b b b b b" in
  let a : ngram := [Latin1.of_string "a"] in
  let translated_ngrams := _get_ngrams (@_tokenize Latin1.latin1 translated) 1 in
  let source_ngrams := _get_ngrams (@_tokenize Latin1.latin1 source) 1 in
  run_at a 3 0 translated_ngrams
  ∧ _count_max_consecutive_any source_ngrams = Ok 3
  ∧ _count_max_consecutive translated_ngrams a = 3
  ∧ frequency_check detector translated_ngrams source_ngrams 1 = Ok false
  ∧ consecutive_check detector translated_ngrams source_ngrams = Ok true
  ∧ @detect_stammering Latin1.latin1 source translated = Ok true
  ∧ ¬ single_value_rule translated_ngrams source_ngrams.
Proof.
  intros source translated a tr src.
  assert (Hrun : run_at a 3 0 tr) by (vm_compute; reflexivity).
  assert (Hcheck : consecutive_check detector tr src = Ok true)
    by (vm_compute; reflexivity).
  split; [exact Hrun|].
  do 3 (split; [vm_compute; reflexivity|]).
  split; [exact Hcheck|]. split; [vm_compute; reflexivity|].
  intros Hrule. destruct (Hrule a O Hrun) as [Hge _].
  assert (Hmsc : Z.of_nat (longest_run_any src) = 3)
    by (vm_compute; reflexivity).
  assert (Hmtc : Z.of_nat (longest_run a tr) = 3)
    by (vm_compute; reflexivity).
  rewrite Hmsc, Hmtc in Hge. apply Hge in Hcheck; lia.
Qed.

(** C3 (amended).  At every n-gram size, the consecutive-run check fires
    exactly when some value [g] fills a window of three consecutive
    translated n-grams and either the longest run of equal consecutive
    n-grams of the source ([max_source_consecutive], [0] for an empty
    sequence) is below 3, or the longest run of [g] in the translation
    exceeds twice [max_source_consecutive].  So every window value that
    passes the test makes the check fire, and a window value that does not
    pass it leaves the decision to the other windows.  The two counting
    methods return these run lengths, and when the check fires at a size of
    the loop [detect] returns [True]. *)
Theorem consecutive_check_rule `{DB : CharDB} (source translated : str)
    (n : Z) :
  let translated_ngrams := _get_ngrams (_tokenize translated) n in
  let source_ngrams := _get_ngrams (_tokenize source) n in
  let max_source_consecutive := Z.of_nat (longest_run_any source_ngrams) in
  let max_translated_consecutive g :=
    Z.of_nat (longest_run g translated_ngrams) in
  _count_max_consecutive_any source_ngrams = Ok max_source_consecutive
  ∧ (∀ g, _count_max_consecutive translated_ngrams g
          = max_translated_consecutive g)
  ∧ (source_ngrams = [] → max_source_consecutive = 0)
  ∧ (consecutive_check detector translated_ngrams source_ngrams = Ok true
     ↔ ∃ g i, run_at g 3 i translated_ngrams
            ∧ (max_source_consecutive < 3
               ∨ max_source_consecutive * 2 < max_translated_consecutive g))
  ∧ (3 ≤ max_source_consecutive →
     consecutive_check detector translated_ngrams source_ngrams = Ok true
     ↔ ∃ g i, run_at g 3 i translated_ngrams
            ∧ max_source_consecutive * 2 < max_translated_consecutive g)
  ∧ (max_source_consecutive < 3 →
     consecutive_check detector translated_ngrams source_ngrams = Ok true
     ↔ ∃ g i, run_at g 3 i translated_ngrams)
  ∧ (∀ g i, run_at g 3 i translated_ngrams →
       max_source_consecutive < 3
       ∨ max_source_consecutive * 2 < max_translated_consecutive g →
       consecutive_check detector translated_ngrams source_ngrams = Ok true)
  ∧ (n ∈ ngram_sizes detector (_tokenize translated)
     → consecutive_check detector translated_ngrams source_ngrams = Ok true
     → detect_stammering source translated = Ok true).
Proof.
  intros tr src msc mtc.
  assert (Hiff :
    consecutive_check detector tr src = Ok true
    ↔ ∃ g i, run_at g 3 i tr ∧ (msc < 3 ∨ msc * 2 < mtc g)).
  { rewrite consecutive_check_total. split.
    - intros [= H]. by apply consecutive_flag_iff in H.
    - intros H. f_equal. by apply consecutive_flag_iff. }
  split; [apply _count_max_consecutive_any_spec|].
  split; [intros g; apply _count_max_consecutive_spec|].
  split; [unfold msc; by intros ->|].
  split; [exact Hiff|]. split; [|split; [|split]].
  - intros Hge. rewrite Hiff. split.
    + intros (g & i & Hrun & [Hlt|Hgt]); [lia|by exists g, i].
    + intros (g & i & Hrun & Hgt). exists g, i. split; [done|by right].
  - intros Hlt. rewrite Hiff. split.
    + intros (g & i & Hrun & _). by exists g, i.
    + intros (g & i & Hrun). exists g, i. split; [done|by left].
  - intros g i Hrun Hcond. apply Hiff. by exists g, i.
  - intros Hn Hcons. apply detect_iff. right.
    apply _has_phrase_repetition_iff. exists n. split; [done|].
    unfold _has_ngram_repetition. cbv zeta. fold tr src.
    rewrite frequency_check_total, bind_Ok.
    by destruct (frequency_flag _ _ _).
Qed.

Lemma consecutive_check_rule_witness :
  let source := Latin1.of_string "x y x y x y" in
  let translated := Latin1.of_string "a a a b" in
  let translated_ngrams := _get_ngrams (@_tokenize Latin1.latin1 translated) 1 in
  let source_ngrams := _get_ngrams (@_tokenize Latin1.latin1 source) 1 in
  1 ∈ ngram_sizes detector (@_tokenize Latin1.latin1 translated)
  ∧ frequency_check detector translated_ngrams source_ngrams 1 = Ok false
  ∧ consecutive_check detector translated_ngrams source_ngrams = Ok true
  ∧ @detect_stammering Latin1.latin1 source translated = Ok true.
Proof.
  intros source translated tr src.
  assert (H1 : 1 ∈ ngram_sizes detector (@_tokenize Latin1.latin1 translated)).
  { apply elem_of_ngram_sizes. vm_compute. split; discriminate. }
  assert (H2 : consecutive_check detector tr src = Ok true).
  { vm_compute. reflexivity. }
  split; [exact H1|]. split; [vm_compute; reflexivity|]. split; [exact H2|].
  exact (proj2 (proj2 (proj2 (proj2 (proj2 (proj2 (proj2
    (@consecutive_check_rule Latin1.latin1 source translated 1))))))) H1 H2).
Defined.

(** ** Appending words to a flagged translation *)

Section Append.
Context `{DB : CharDB}.

Lemma split_from_app (tok a b : str) (c : cp) :
  isspace c = true →
  split_from tok (a ++ c :: b) = split_from tok a ++ split_from [] b.
Proof.
  intros Hc. revert tok. induction a as [|x a IH]; intros tok; simpl.
  - rewrite Hc. by destruct (Py.truthy tok).
  - destruct (isspace x); [|apply IH].
    destruct (Py.truthy tok); simpl; by rewrite IH.
Qed.

Lemma _tokenize_app (a b : str) (c : cp) :
  isspace c = true →
  _tokenize (a ++ c :: b) = _tokenize a ++ _tokenize b.
Proof.
  intros Hc. unfold _tokenize, split. cbv zeta.
  by rewrite split_from_app, List.filter_app, fmap_app.
Qed.

(** The n-grams of a token list come first among those of an extension. *)
Lemma _get_ngrams_app (tokens extra : list str) (n : Z) :
  1 ≤ n →
  ∃ more, _get_ngrams (tokens ++ extra) n = _get_ngrams tokens n ++ more.
Proof.
  intros Hn.
  destruct (Z_lt_ge_dec (Py.len tokens) n) as [Hshort|Hlong].
  - rewrite (_get_ngrams_short tokens n Hshort). by eexists.
  - unfold _get_ngrams, Py.range. rewrite len_app.
    pose proof (len_nonneg extra).
    replace (Py.len tokens + Py.len extra - n + 1 - 0)
      with ((Py.len tokens - n + 1 - 0) + Py.len extra) by lia.
    rewrite seqZ_app by lia. rewrite fmap_app. eexists. f_equal.
    apply list_fmap_ext. intros k i Hi. apply lookup_seqZ in Hi as [-> Hk].
    rewrite !slice_take_drop by lia. unfold Py.len in *.
    rewrite drop_app_le by lia. rewrite take_app_le; [done|].
    rewrite length_drop. lia.
Qed.

Lemma run_at_app {A} `{EqDecision A} (g : A) (k i : nat) (l l' : list A) :
  (1 ≤ k)%nat → run_at g k i l → run_at g k i (l ++ l').
Proof.
  unfold run_at. intros Hk Hrun.
  assert (Hlen : (i + k ≤ length l)%nat).
  { apply (f_equal length) in Hrun.
    rewrite length_take, length_drop, length_replicate in Hrun. lia. }
  rewrite drop_app_le by lia. rewrite take_app_le; [done|].
  rewrite length_drop. lia.
Qed.

(** A size that fires still fires when translated tokens are appended. *)
Lemma ngram_flag_app (self : StammeringDetector)
    (translated_tokens extra source_tokens : list str) (n : Z) :
  1 ≤ min_repetitions self → 1 ≤ n →
  ngram_flag self translated_tokens source_tokens n = true →
  ngram_flag self (translated_tokens ++ extra) source_tokens n = true.
Proof.
  intros Hm Hn. unfold ngram_flag.
  destruct (_get_ngrams_app translated_tokens extra n Hn) as [more ->].
  rewrite !orb_true_iff, !frequency_flag_iff, !consecutive_flag_iff by done.
  intros [(g & Hg & Hmin & Hgt)|(g & i & Hrun & Hcond)]; [left|right].
  - exists g. rewrite occurrences_app.
    pose proof (occurrences_nonneg g more).
    split; [apply elem_of_app; by left|]. lia.
  - exists g, i. split; [apply run_at_app; [lia|done]|].
    pose proof (longest_run_app g (_get_ngrams translated_tokens n) more).
    lia.
Qed.

Lemma lead_app_ge (c : cp) (a b : str) : (lead c a ≤ lead c (a ++ b))%nat.
Proof.
  induction a as [|x a IH]; simpl; [lia|]. case_decide; lia.
Qed.

Lemma lead_app_lt (c : cp) (a b : str) :
  (lead c a < length a)%nat → lead c (a ++ b) = lead c a.
Proof.
  induction a as [|x a IH]; simpl; [lia|].
  case_decide; [|done]. intros Hlt. rewrite IH; [done|lia].
Qed.

(** The total over the runs does not decrease when text is appended. *)
Lemma elongated_total_app (a b : str) :
  elongated_total (runs a) ≤ elongated_total (runs (a ++ b)).
Proof.
  remember (length a) as n eqn:Hn. revert a Hn.
  induction n as [n IH] using lt_wf_ind. intros [|c a] Hn.
  - simpl. apply elongated_total_nonneg.
  - change ((c :: a) ++ b) with (c :: (a ++ b)). rewrite !runs_cons.
    cbn [elongated_total].
    pose proof (lead_le_length c a) as Hle.
    pose proof (lead_app_ge c a b) as Hge.
    destruct (decide (lead c a < length a)%nat) as [Hlt|Hall].
    + rewrite (lead_app_lt c a b Hlt). rewrite drop_app_le by lia.
      assert (elongated_total (runs (drop (lead c a) a))
              ≤ elongated_total (runs (drop (lead c a) a ++ b))); [|lia].
      apply (IH (length (drop (lead c a) a))); [|done].
      rewrite length_drop. subst n. simpl. lia.
    + rewrite (drop_ge a) by lia. simpl runs. cbn [elongated_total].
      pose proof (elongated_total_nonneg
        (runs (drop (lead c (a ++ b)) (a ++ b)))).
      destruct (isalnum c); rewrite ?andb_false_r, ?andb_true_r; [|lia].
      destruct (Nat.leb_spec 3 (S (lead c a)));
        destruct (Nat.leb_spec 3 (S (lead c (a ++ b)))); lia.
Qed.

(** A space hides what follows it from a capital sigma that precedes it. *)
Lemma cased_next_app_space (a b : str) :
  cased_next (a ++ space :: b) = cased_next a.
Proof.
  induction a as [|c a IH]; simpl.
  - by rewrite case_ignorable_space, cased_space.
  - by rewrite IH.
Qed.

(** Lowercasing a text followed by a space and more text lowercases the
    text as it does on its own. *)
Lemma lower_from_app_space (before a b : str) :
  lower_from before (a ++ space :: b)
  = lower_from before a ++ lower_from (rev a ++ before) (space :: b).
Proof.
  revert before. induction a as [|c a IH]; intros before; [done|].
  cbn [app lower_from]. rewrite IH. unfold lower_sigma.
  rewrite cased_next_app_space, <- app_assoc.
  simpl rev. by rewrite <- (app_assoc (rev a) [c] before).
Qed.

Lemma elongation_score_app_space (a b : str) :
  elongation_score a ≤ elongation_score (a ++ space :: b).
Proof.
  unfold elongation_score, lower. rewrite lower_from_app_space.
  apply elongated_total_app.
Qed.

(** A flagged translation stays flagged when a space and any text are
    appended to it. *)
Lemma detect_app_space (self : StammeringDetector)
    (source translated more : str) :
  1 ≤ min_repetitions self →
  detect self source translated = Ok true →
  detect self source (translated ++ space :: more) = Ok true.
Proof.
  intros Hm. rewrite !detect_total. intros [= H]. f_equal.
  apply orb_true_iff in H as [H|H]; apply orb_true_iff; [left|right].
  - pose proof (elongation_score_app_space translated more).
    apply andb_prop in H as [H1 H2]. apply andb_true_intro. split; lia.
  - apply existsb_elem_of in H as (n & Hn & Hflag).
    rewrite (_tokenize_app _ _ _ isspace_space).
    unfold ngram_sizes, Py.range in Hn. apply elem_of_seqZ in Hn.
    apply existsb_elem_of. exists n. split.
    + unfold ngram_sizes, Py.range. apply elem_of_seqZ. rewrite len_app.
      pose proof (len_nonneg (_tokenize more)). lia.
    + apply ngram_flag_app; [done|lia|done].
Qed.

End Append.

(** C8.  When [detect] flags a translation, it still flags it after [k]
    further copies of a word [w], separated by spaces, are appended to it
    after a space; this holds for every [k] (in particular every
    [k ≥ 1]) and every [w]. *)
Theorem detect_monotone_append `{DB : CharDB} (s t w : str) (k : nat) :
  detect_stammering s t = Ok true →
  detect_stammering s (t ++ [space] ++ join [space] (replicate k w))
  = Ok true.
Proof.
  intros H. unfold detect_stammering. simpl app.
  by apply detect_app_space.
Qed.

Lemma detect_monotone_append_witness :
  let s := Latin1.of_string "Dove si trova la stazione?" in
  let t := Latin1.of_string "Where is the station station station" in
  @detect_stammering Latin1.latin1 s t = Ok true
  ∧ @detect_stammering Latin1.latin1 s
      (t ++ [space]
         ++ join [space] (replicate 2 (Latin1.of_string "station")))
    = Ok true.
Proof.
  intros s t.
  assert (H : @detect_stammering Latin1.latin1 s t = Ok true)
    by (vm_compute; reflexivity).
  split; [exact H|].
  exact (@detect_monotone_append Latin1.latin1 s t
           (Latin1.of_string "station") 2 H).
Defined.

(** ** Uppercasing an argument *)

Section Upper.
Context `{DB : CharDB}.

Lemma upper_cons (c : cp) (s : str) : upper (c :: s) = upper_char c ++ upper s.
Proof. reflexivity. Qed.

Lemma split_from_nonspace (us tok r : str) :
  forallb (fun u => negb (isspace u)) us = true →
  split_from tok (us ++ r) = split_from (tok ++ us) r.
Proof.
  revert tok. induction us as [|u us IH]; intros tok H; simpl.
  - by rewrite app_nil_r.
  - simpl in H. apply andb_prop in H as [Hu Hus].
    apply negb_true_iff in Hu. rewrite Hu, IH by done.
    by rewrite <- app_assoc.
Qed.

Lemma truthy_app_r {A} (a b : list A) :
  Py.truthy b = true → Py.truthy (a ++ b) = true.
Proof. destruct a, b; done. Qed.

(** Without a capital sigma, [lower] maps each code point on its own. *)
Lemma lower_from_sigma_free (before s : str) :
  Forall (fun c => c ≠ capital_sigma) s →
  lower_from before s = flat_map lower_char s.
Proof.
  intros Hs. revert before.
  induction Hs as [|c s Hc _ IH]; intros before; [done|].
  cbn [lower_from flat_map]. rewrite decide_False by done. by rewrite IH.
Qed.

Lemma lower_sigma_free (s : str) :
  Forall (fun c => c ≠ capital_sigma) s → lower s = flat_map lower_char s.
Proof. apply lower_from_sigma_free. Qed.

Lemma case_stable_sigma_free (c : cp) :
  case_stable c = true →
  c ≠ capital_sigma ∧ Forall (fun u => u ≠ capital_sigma) (upper_char c).
Proof.
  intros Hc. apply andb_prop in Hc as [Hc _].
  apply andb_prop in Hc as [Hc Hup]. split.
  - apply negb_true_iff, bool_decide_eq_false in Hc. exact Hc.
  - apply Forall_forall. intros u Hu. apply list_elem_of_In in Hu.
    rewrite forallb_forall in Hup. specialize (Hup u Hu).
    apply negb_true_iff, bool_decide_eq_false in Hup. exact Hup.
Qed.

Lemma case_stable_lower (c : cp) :
  case_stable c = true → flat_map lower_char (upper_char c) = lower_char c.
Proof.
  intros Hc. destruct (case_stable_sigma_free c Hc) as [_ Hup].
  apply andb_prop in Hc as [_ Hc]. apply andb_prop in Hc as [Hc _].
  apply bool_decide_eq_true in Hc. by rewrite <- Hc, lower_sigma_free.
Qed.

Lemma sigma_free_of_stable (s : str) :
  Forall (fun c => case_stable c = true) s →
  Forall (fun c => c ≠ capital_sigma) s.
Proof.
  intros Hs. eapply Forall_impl; [exact Hs|].
  intros c Hc. by apply case_stable_sigma_free.
Qed.

Lemma upper_sigma_free (s : str) :
  Forall (fun c => case_stable c = true) s →
  Forall (fun c => c ≠ capital_sigma) (upper s).
Proof.
  induction 1 as [|c s Hc _ IH]; [constructor|].
  rewrite upper_cons. apply Forall_app. split; [|done].
  by apply case_stable_sigma_free.
Qed.

Lemma lower_upper (s : str) :
  Forall (fun c => case_stable c = true) s → lower (upper s) = lower s.
Proof.
  intros Hs.
  rewrite (lower_sigma_free (upper s)) by by apply upper_sigma_free.
  rewrite (lower_sigma_free s) by by apply sigma_free_of_stable.
  induction Hs as [|c s Hc _ IH]; [done|].
  rewrite upper_cons, flat_map_app, IH.
  by rewrite (case_stable_lower c Hc).
Qed.

Lemma tokens_upper (s tok tok' : str) :
  Forall (fun c => case_stable c = true) s →
  Py.truthy tok' = Py.truthy tok →
  flat_map lower_char tok' = flat_map lower_char tok →
  flat_map lower_char <$> List.filter Py.truthy (split_from tok' (upper s))
  = flat_map lower_char <$> List.filter Py.truthy (split_from tok s).
Proof.
  intros Hs. revert tok tok'.
  induction Hs as [|c s Hc _ IH]; intros tok tok' Ht Hl.
  - change (upper []) with (@nil cp). cbn [split_from].
    rewrite Ht. destruct (Py.truthy tok) eqn:E; [|done].
    cbn -[flat_map]. rewrite Ht, E. cbn -[flat_map]. by rewrite Hl.
  - rewrite upper_cons. pose proof (case_stable_lower c Hc) as Hlow.
    apply andb_prop in Hc as [_ Hc]. apply andb_prop in Hc as [_ Hc].
    cbn [split_from].
    destruct (isspace c) eqn:Hsp.
    + apply bool_decide_eq_true in Hc. rewrite Hc. cbn [app].
      cbn [split_from]. rewrite Hsp, Ht.
      destruct (Py.truthy tok) eqn:E; [|by apply IH].
      cbn -[flat_map]. rewrite Ht, E. cbn -[flat_map]. rewrite Hl.
      f_equal. by apply IH.
    + apply andb_prop in Hc as [Hne Hns].
      rewrite split_from_nonspace by done. apply IH.
      * rewrite !truthy_app_r; done.
      * rewrite !flat_map_app, Hl. f_equal.
        rewrite Hlow. simpl. by rewrite app_nil_r.
Qed.

(** The tokens of a text hold the code points of the text. *)
Lemma split_from_Forall (P : cp → Prop) (tok s : str) :
  Forall P tok → Forall P s → Forall (Forall P) (split_from tok s).
Proof.
  intros Htok Hs. revert tok Htok.
  induction Hs as [|c s Hc _ IH]; intros tok Htok; simpl.
  - destruct (Py.truthy tok); repeat constructor; done.
  - destruct (isspace c).
    + destruct (Py.truthy tok); [constructor; [done|]|]; by apply IH.
    + apply IH. apply Forall_app. split; [done|]. by constructor.
Qed.

Lemma _tokenize_sigma_free (s : str) :
  Forall (fun c => c ≠ capital_sigma) s →
  _tokenize s = flat_map lower_char <$> List.filter Py.truthy (split s).
Proof.
  intros Hs. unfold _tokenize. cbv zeta.
  apply list_fmap_ext. intros i t Ht. apply lower_sigma_free.
  apply list_elem_of_lookup_2, list_elem_of_In, filter_In in Ht as [Ht _].
  pose proof (split_from_Forall _ [] s (Forall_nil_2 _) Hs) as Hall.
  rewrite Forall_forall in Hall. apply Hall. by apply list_elem_of_In.
Qed.

Lemma _tokenize_upper (s : str) :
  Forall (fun c => case_stable c = true) s →
  _tokenize (upper s) = _tokenize s.
Proof.
  intros Hs.
  rewrite (_tokenize_sigma_free (upper s)) by by apply upper_sigma_free.
  rewrite (_tokenize_sigma_free s) by by apply sigma_free_of_stable.
  unfold split. by apply tokens_upper.
Qed.

Lemma elongation_score_upper (s : str) :
  Forall (fun c => case_stable c = true) s →
  elongation_score (upper s) = elongation_score s.
Proof. intros Hs. unfold elongation_score. by rewrite lower_upper. Qed.

End Upper.

(** Every ASCII code point is stable in [latin1]. *)
Lemma ascii_case_stable (c : cp) :
  (c < 128)%N → @case_stable Latin1.latin1 c = true.
Proof.
  intros Hc.
  assert (Hall : forallb (@case_stable Latin1.latin1)
                   (N.of_nat <$> seq 0 128) = true)
    by (vm_compute; reflexivity).
  rewrite forallb_forall in Hall. apply Hall.
  apply list_elem_of_In, list_elem_of_fmap. exists (N.to_nat c).
  split; [lia|]. apply elem_of_seq. lia.
Qed.

(** [str.lower] on a capital sigma: the final sigma after a cased code
    point when no cased code point follows, the case-ignorable code points
    (an apostrophe, a full stop, a colon) apart; the small sigma
    otherwise. *)
Example lower_capital_sigma_cases :
  let lower := @lower Greek.greek in
  lower [931]%N = [963]%N
  ∧ lower [945; 931]%N = [945; 962]%N
  ∧ lower [945; 931; 945]%N = [945; 963; 945]%N
  ∧ lower [945; 39; 931]%N = [945; 39; 962]%N
  ∧ lower [945; 931; 46; 945]%N = [945; 963; 46; 945]%N
  ∧ lower [945; 931; 46; 32; 945]%N = [945; 962; 46; 32; 945]%N
  ∧ lower [931; 945]%N = [963; 945]%N
  ∧ lower [32; 931]%N = [32; 963]%N
  ∧ lower [945; 931; 931]%N = [945; 963; 962]%N
  ∧ lower [913; 931]%N = [945; 962]%N
  ∧ lower [97; 46; 931; 58]%N = [97; 46; 962; 58]%N
  ∧ lower [962; 931]%N = [962; 962]%N
  ∧ lower [49; 931]%N = [49; 963]%N.
Proof. vm_compute. repeat split. Qed.

(** Why [case_stable] leaves out the sigmas: in a text whose second word
    ends in a capital sigma and whose two other words are the same word in
    lowercase, the three tokens are not equal, and they are once the text is
    uppercased; so uppercasing turns an unflagged translation into a
    flagged one, although the uppercase of every code point of the text
    lowers to its lowercase. *)
Lemma capital_sigma_case_sensitive :
  let x := Latin1.of_string "x" in
  let t : str := [945; 963; 32; 945; 931; 32; 945; 963]%N in
  Forall (fun c => @lower Greek.greek (@upper_char Greek.greek c)
                   = @lower_char Greek.greek c) t
  ∧ @_tokenize Greek.greek t = [[945; 963]; [945; 962]; [945; 963]]%N
  ∧ @_tokenize Greek.greek (@upper Greek.greek t)
    = [[945; 962]; [945; 962]; [945; 962]]%N
  ∧ @detect_stammering Greek.greek x t = Ok false
  ∧ @detect_stammering Greek.greek x (@upper Greek.greek t) = Ok true.
Proof.
  intros x t. split.
  - unfold t. repeat (constructor; [vm_compute; reflexivity|]). constructor.
  - repeat split; vm_compute; reflexivity.
Qed.

(** C7, as first stated, fails: [detect] is not case-insensitive on every
    string.  The uppercase of U+00DF is "SS", so uppercasing doubles a run
    of it.  A translation of
    21 of them scores 21 and is not flagged, its uppercase scores 42 and is
    flagged; against a translation scoring 100, a source of 21 of them
    scores 21 and the translation is flagged, while the uppercase source
    scores 42 and it is not. *)
Lemma detect_case_sensitive :
  let eszett := replicate 21 223%N : str in
  let x := Latin1.of_string "x" in
  let ooo := replicate 100 111%N : str in
  @upper Latin1.latin1 eszett = replicate 42 83%N
  ∧ @detect_stammering Latin1.latin1 x eszett = Ok false
  ∧ @detect_stammering Latin1.latin1 x (@upper Latin1.latin1 eszett) = Ok true
  ∧ @detect_stammering Latin1.latin1 eszett ooo = Ok true
  ∧ @detect_stammering Latin1.latin1 (@upper Latin1.latin1 eszett) ooo
    = Ok false
  ∧ ¬ (∀ source translated : str,
         @detect_stammering Latin1.latin1
           (@upper Latin1.latin1 source) translated
         = @detect_stammering Latin1.latin1 source translated)
  ∧ ¬ (∀ source translated : str,
         @detect_stammering Latin1.latin1 source
           (@upper Latin1.latin1 translated)
         = @detect_stammering Latin1.latin1 source translated).
Proof.
  intros eszett x ooo.
  assert (H1 : @detect_stammering Latin1.latin1 x eszett = Ok false)
    by (vm_compute; reflexivity).
  assert (H2 : @detect_stammering Latin1.latin1 x
                 (@upper Latin1.latin1 eszett) = Ok true)
    by (vm_compute; reflexivity).
  assert (H3 : @detect_stammering Latin1.latin1 eszett ooo = Ok true)
    by (vm_compute; reflexivity).
  assert (H4 : @detect_stammering Latin1.latin1
                 (@upper Latin1.latin1 eszett) ooo = Ok false)
    by (vm_compute; reflexivity).
  split; [vm_compute; reflexivity|].
  split; [exact H1|]. split; [exact H2|].
  split; [exact H3|]. split; [exact H4|]. split.
  - intros H. specialize (H eszett ooo). rewrite H3, H4 in H. discriminate.
  - intros H. specialize (H x eszett). rewrite H1, H2 in H. discriminate.
Qed.

(** C7 (amended).  Uppercasing an argument does not change the result of
    [detect] when every code point of that argument is [case_stable]: it is
    not the capital sigma and its uppercase holds none (so neither the
    argument nor its uppercase meets the rule of [str.lower] for a sigma
    that ends a word, and both are lowered one code point at a time), its
    uppercase lowers to its lowercase, and its uppercase is whitespace
    exactly when it is.  Every ASCII code point is [case_stable], so that
    [detect] is case-insensitive on ASCII text. *)
Theorem detect_case_insensitive `{DB : CharDB} (source translated : str) :
  (Forall (fun c => case_stable c = true) source →
   detect_stammering (upper source) translated
   = detect_stammering source translated)
  ∧ (Forall (fun c => case_stable c = true) translated →
     detect_stammering source (upper translated)
     = detect_stammering source translated)
  ∧ (∀ c : cp, (c < 128)%N → @case_stable Latin1.latin1 c = true)
  ∧ (Forall (fun c => (c < 128)%N) source →
     @detect_stammering Latin1.latin1 (@upper Latin1.latin1 source) translated
     = @detect_stammering Latin1.latin1 source translated)
  ∧ (Forall (fun c => (c < 128)%N) translated →
     @detect_stammering Latin1.latin1 source (@upper Latin1.latin1 translated)
     = @detect_stammering Latin1.latin1 source translated).
Proof.
  assert (Hsrc : ∀ (D : CharDB) (s t : str),
    Forall (fun c => @case_stable D c = true) s →
    @detect_stammering D (@upper D s) t = @detect_stammering D s t).
  { intros D s t Hs. unfold detect_stammering. rewrite !detect_total.
    by rewrite elongation_score_upper, _tokenize_upper. }
  assert (Htr : ∀ (D : CharDB) (s t : str),
    Forall (fun c => @case_stable D c = true) t →
    @detect_stammering D s (@upper D t) = @detect_stammering D s t).
  { intros D s t Ht. unfold detect_stammering. rewrite !detect_total.
    by rewrite elongation_score_upper, _tokenize_upper. }
  split; [apply Hsrc|]. split; [apply Htr|].
  split; [apply ascii_case_stable|]. split.
  - intros Hs. apply Hsrc. eapply Forall_impl; [exact Hs|].
    apply ascii_case_stable.
  - intros Ht. apply Htr. eapply Forall_impl; [exact Ht|].
    apply ascii_case_stable.
Qed.

Lemma detect_case_insensitive_witness :
  let source := Latin1.of_string "Dove si trova la stazione?" in
  let translated := Latin1.of_string "Where is the station station station" in
  Forall (fun c => @case_stable Latin1.latin1 c = true) source
  ∧ Forall (fun c => @case_stable Latin1.latin1 c = true) translated
  ∧ @detect_stammering Latin1.latin1 (@upper Latin1.latin1 source) translated
    = @detect_stammering Latin1.latin1 source translated
  ∧ @detect_stammering Latin1.latin1 source (@upper Latin1.latin1 translated)
    = @detect_stammering Latin1.latin1 source translated.
Proof.
  intros source translated.
  assert (Hs : Forall (fun c => @case_stable Latin1.latin1 c = true) source).
  { apply Forall_forall. intros c Hc. apply list_elem_of_In in Hc.
    revert c Hc. apply forallb_forall. vm_compute. reflexivity. }
  assert (Ht : Forall (fun c => @case_stable Latin1.latin1 c = true)
                 translated).
  { apply Forall_forall. intros c Hc. apply list_elem_of_In in Hc.
    revert c Hc. apply forallb_forall. vm_compute. reflexivity. }
  split; [exact Hs|]. split; [exact Ht|]. split.
  - exact (proj1 (@detect_case_insensitive Latin1.latin1 source translated)
             Hs).
  - exact (proj1 (proj2
             (@detect_case_insensitive Latin1.latin1 source translated)) Ht).
Defined.

(** * Further properties of the detector's methods *)

(** ** The tokenizer *)

Section Tokens.
Context `{DB : CharDB}.

Lemma split_from_concat (tok s : str) :
  concat (split_from tok s)
  = tok ++ List.filter (fun c => negb (isspace c)) s.
Proof.
  revert tok. induction s as [|c s IH]; intros tok; simpl.
  - destruct tok; simpl; by rewrite ?app_nil_r.
  - destruct (isspace c); simpl.
    + destruct tok as [|t tok]; simpl; by rewrite IH.
    + by rewrite IH, <- app_assoc.
Qed.

Lemma split_from_tokens (tok s : str) :
  Forall (fun c => isspace c = false) tok →
  Forall (fun t => t ≠ [] ∧ Forall (fun c => isspace c = false) t)
    (split_from tok s).
Proof.
  revert tok. induction s as [|c s IH]; intros tok Htok; simpl.
  - destruct tok as [|t tok]; simpl; [constructor|].
    constructor; [by split|constructor].
  - destruct (isspace c) eqn:Hc.
    + destruct tok as [|t tok]; simpl.
      * apply IH. constructor.
      * constructor; [by split|]. apply IH. constructor.
    + apply IH. apply Forall_app. split; [done|].
      constructor; [done|constructor].
Qed.

Lemma filter_truthy_nonempty (l : list str) :
  Forall (fun t => t ≠ []) l → List.filter Py.truthy l = l.
Proof.
  induction 1 as [|t l Ht _ IH]; simpl; [done|].
  destruct t; [done|]. simpl. by rewrite IH.
Qed.

Lemma split_nonempty (s : str) : Forall (fun t => t ≠ []) (split s).
Proof.
  eapply Forall_impl; [apply (split_from_tokens [] s); constructor|].
  by intros t [Ht _].
Qed.

Lemma _tokenize_split (text : str) : _tokenize text = lower <$> split text.
Proof.
  unfold _tokenize. cbv zeta.
  by rewrite (filter_truthy_nonempty _ (split_nonempty text)).
Qed.

Lemma split_from_word (tok w : str) :
  Forall (fun c => isspace c = false) w → tok ++ w ≠ [] →
  split_from tok w = [tok ++ w].
Proof.
  intros Hw Hne. rewrite <- (app_nil_r w) at 1.
  rewrite split_from_nonspace.
  - simpl. by destruct (tok ++ w).
  - apply forallb_forall. intros c Hc. apply list_elem_of_In in Hc.
    rewrite Forall_forall in Hw. by rewrite (Hw c Hc).
Qed.

Lemma split_join (tokens : list str) :
  Forall (fun t => t ≠ [] ∧ Forall (fun c => isspace c = false) t) tokens →
  split (join [space] tokens) = tokens.
Proof.
  unfold split. induction 1 as [|w l [Hne Hw] Hl IH]; [done|].
  destruct l as [|w' l].
  - simpl. by rewrite split_from_word.
  - change (join [space] (w :: w' :: l))
      with (w ++ space :: join [space] (w' :: l)).
    rewrite (split_from_app _ _ _ _ isspace_space), IH.
    by rewrite split_from_word.
Qed.

End Tokens.

(** X1.  [str.split] loses nothing but whitespace: its tokens are not
    empty and hold no whitespace, and put end to end they are the text
    without its whitespace.  So the test [if t] of [_tokenize] never drops
    a token: [_tokenize] lowercases each token of the split. *)
Theorem _tokenize_keeps_all `{DB : CharDB} (text : str) :
  Forall (fun t => t ≠ [] ∧ Forall (fun c => isspace c = false) t)
    (split text)
  ∧ concat (split text) = List.filter (fun c => negb (isspace c)) text
  ∧ List.filter Py.truthy (split text) = split text
  ∧ _tokenize text = lower <$> split text
  ∧ Py.len (_tokenize text) = Py.len (split text).
Proof.
  split; [apply split_from_tokens; constructor|].
  split; [apply (split_from_concat [] text)|].
  split; [apply filter_truthy_nonempty, split_nonempty|].
  split; [apply _tokenize_split|].
  rewrite _tokenize_split. unfold Py.len. by rewrite length_fmap.
Qed.

(** X2.  Joining tokens with single spaces and tokenizing gives the tokens
    back, lowercased, provided no token is empty or holds whitespace. *)
Theorem _tokenize_join `{DB : CharDB} (tokens : list str) :
  Forall (fun t => t ≠ [] ∧ Forall (fun c => isspace c = false) t) tokens →
  split (join [space] tokens) = tokens
  ∧ _tokenize (join [space] tokens) = lower <$> tokens.
Proof.
  intros H. split; [by apply split_join|].
  by rewrite _tokenize_split, split_join.
Qed.

Lemma _tokenize_join_witness :
  let tokens := [Latin1.of_string "Bye"; Latin1.of_string "bye!"] in
  Forall (fun t => t ≠ []
                   ∧ Forall (fun c => @isspace Latin1.latin1 c = false) t)
    tokens
  ∧ @_tokenize Latin1.latin1 (join [space] tokens)
    = @lower Latin1.latin1 <$> tokens.
Proof.
  intros tokens.
  assert (H : Forall (fun t => t ≠ []
                ∧ Forall (fun c => @isspace Latin1.latin1 c = false) t)
              tokens).
  { repeat constructor; discriminate. }
  split; [exact H|].
  exact (proj2 (@_tokenize_join Latin1.latin1 tokens H)).
Defined.

(** X3.  [_tokenize] returns no token exactly for a text made of
    whitespace only (the empty text included); the phrase-repetition stage
    then returns [False] for such a translation, whatever the source and
    the detector. *)
Theorem _tokenize_nil_iff `{DB : CharDB} (text : str) :
  (_tokenize text = [] ↔ Forall (fun c => isspace c = true) text)
  ∧ (Forall (fun c => isspace c = true) text →
     ∀ (self : StammeringDetector) (source : str),
       _has_phrase_repetition self text source = Ok false).
Proof.
  assert (Hiff : _tokenize text = []
                 ↔ Forall (fun c => isspace c = true) text).
  { rewrite _tokenize_split. split.
    - intros H. apply fmap_nil_inv in H.
      pose proof (split_from_concat [] text) as Hc.
      fold (split text) in Hc. rewrite H in Hc. simpl in Hc.
      apply Forall_forall. intros c Hin.
      destruct (isspace c) eqn:E; [done|]. exfalso.
      assert (Hf : c ∈ List.filter (fun c => negb (isspace c)) text).
      { apply list_elem_of_In, filter_In. split.
        - by apply list_elem_of_In.
        - by rewrite E. }
      rewrite <- Hc in Hf. by apply elem_of_nil in Hf.
    - intros Hall.
      pose proof (split_from_concat [] text) as Hc.
      fold (split text) in Hc. simpl in Hc.
      assert (Hf : List.filter (fun c => negb (isspace c)) text = []).
      { clear Hc. induction Hall as [|c l Hcsp _ IH]; simpl; [done|].
        by rewrite Hcsp. }
      rewrite Hf in Hc. pose proof (split_nonempty text) as Hne.
      destruct (split text) as [|t l]; [done|].
      apply Forall_cons in Hne as [Ht _]. simpl in Hc.
      by apply app_eq_nil in Hc as [-> _]. }
  split; [exact Hiff|].
  intros Hall self source. apply Hiff in Hall.
  unfold _has_phrase_repetition. cbv zeta. rewrite Hall.
  unfold ngram_sizes, Py.range, Py.len. simpl length.
  rewrite seqZ_nil; [done|]. lia.
Qed.

Lemma _tokenize_nil_iff_witness :
  Forall (fun c => @isspace Latin1.latin1 c = true) (Latin1.of_string "   ")
  ∧ @_has_phrase_repetition Latin1.latin1 detector (Latin1.of_string "   ")
      (Latin1.of_string "ciao") = Ok false.
Proof.
  assert (H : Forall (fun c => @isspace Latin1.latin1 c = true)
                (Latin1.of_string "   ")).
  { repeat constructor. }
  split; [exact H|].
  exact (proj2 (@_tokenize_nil_iff Latin1.latin1 (Latin1.of_string "   "))
           H detector (Latin1.of_string "ciao")).
Defined.

(** X4.  The tokens of a text cut at a whitespace code point are the tokens
    of what precedes it followed by those of what follows it.  So
    whitespace at either end of a text, or doubled, does not change its
    tokens. *)
Theorem _tokenize_whitespace `{DB : CharDB} (c : cp) (a b : str) :
  isspace c = true →
  _tokenize (a ++ c :: b) = _tokenize a ++ _tokenize b
  ∧ _tokenize (c :: a) = _tokenize a
  ∧ _tokenize (a ++ [c]) = _tokenize a
  ∧ _tokenize (a ++ c :: c :: b) = _tokenize (a ++ c :: b).
Proof.
  intros Hc.
  assert (Hnil : _tokenize [] = []) by done.
  assert (Hhead : ∀ s, _tokenize (c :: s) = _tokenize s).
  { intros s. change (c :: s) with ([] ++ c :: s).
    by rewrite (_tokenize_app [] s c Hc). }
  split; [by apply _tokenize_app|]. split; [apply Hhead|]. split.
  - by rewrite (_tokenize_app a [] c Hc), Hnil, app_nil_r.
  - rewrite (_tokenize_app a (c :: b) c Hc), (_tokenize_app a b c Hc).
    by rewrite Hhead.
Qed.

Lemma _tokenize_whitespace_witness :
  @isspace Latin1.latin1 space = true
  ∧ @_tokenize Latin1.latin1
      (Latin1.of_string "bye" ++ space :: Latin1.of_string "Bye")
    = @_tokenize Latin1.latin1 (Latin1.of_string "bye")
      ++ @_tokenize Latin1.latin1 (Latin1.of_string "Bye").
Proof.
  split; [reflexivity|].
  exact (proj1 (@_tokenize_whitespace Latin1.latin1 space
                  (Latin1.of_string "bye") (Latin1.of_string "Bye")
                  eq_refl)).
Defined.

(** ** The n-grams *)

Lemma _get_ngrams_take_drop (tokens : list str) (n : Z) :
  1 ≤ n →
  _get_ngrams tokens n
  = (fun i => take (Z.to_nat n) (drop i tokens))
      <$> seq 0 (length tokens + 1 - Z.to_nat n).
Proof.
  intros Hn. unfold _get_ngrams, Py.range, seqZ, Py.len.
  rewrite <- list_fmap_compose.
  replace (Z.to_nat (Z.of_nat (length tokens) - n + 1 - 0))
    with (length tokens + 1 - Z.to_nat n)%nat by lia.
  apply list_fmap_ext. intros k i _. simpl.
  rewrite Z.add_0_r, slice_take_drop by lia. by rewrite Nat2Z.id.
Qed.

Lemma _get_ngrams_cons (x : str) (tokens : list str) (n : Z) :
  1 ≤ n → n ≤ Py.len (x :: tokens) →
  _get_ngrams (x :: tokens) n
  = take (Z.to_nat n) (x :: tokens) :: _get_ngrams tokens n.
Proof.
  intros Hn Hle. unfold Py.len in Hle. simpl length in Hle.
  rewrite !_get_ngrams_take_drop by done. simpl length.
  replace (S (length tokens) + 1 - Z.to_nat n)%nat
    with (S (length tokens + 1 - Z.to_nat n)) by lia.
  simpl seq. rewrite fmap_cons, drop_0. f_equal.
  rewrite <- fmap_S_seq, <- list_fmap_compose. done.
Qed.

Lemma _get_ngrams_lookup (tokens : list str) (n : Z) (i : nat) (g : ngram) :
  1 ≤ n →
  _get_ngrams tokens n !! i = Some g
  ↔ Z.of_nat i + n ≤ Py.len tokens ∧ g = take (Z.to_nat n) (drop i tokens).
Proof.
  intros Hn. rewrite _get_ngrams_take_drop by done. unfold Py.len.
  rewrite list_lookup_fmap. split.
  - intros H. apply fmap_Some in H as (j & Hj & ->).
    apply lookup_seq in Hj as [-> Hlt]. split; [lia|done].
  - intros [Hle ->]. rewrite lookup_seq_lt by lia. done.
Qed.

(** X5.  For a size [n ≥ 1], [_get_ngrams] returns [len(tokens) - n + 1]
    n-grams, or none when that is negative; each has exactly [n] tokens (no
    slice is cut short by the end of the list); the n-gram at position [i]
    is [tokens[i:i+n]]; and the first tokens of the n-grams are the first
    tokens of the list, in order. *)
Theorem _get_ngrams_shape (tokens : list str) (n : Z) :
  1 ≤ n →
  Py.len (_get_ngrams tokens n) = Z.max 0 (Py.len tokens - n + 1)
  ∧ Forall (fun g => Py.len g = n) (_get_ngrams tokens n)
  ∧ (∀ (i : nat) (g : ngram),
       _get_ngrams tokens n !! i = Some g
       ↔ Z.of_nat i + n ≤ Py.len tokens
         ∧ g = take (Z.to_nat n) (drop i tokens))
  ∧ head <$> _get_ngrams tokens n
    = Some <$> take (Z.to_nat (Py.len tokens - n + 1)) tokens.
Proof.
  intros Hn. split; [apply len_get_ngrams|]. split; [|split].
  - apply Forall_forall. intros g Hg.
    apply list_elem_of_lookup in Hg as [i Hi].
    apply _get_ngrams_lookup in Hi as [Hle ->]; [|done].
    unfold Py.len in *. rewrite length_take, length_drop. lia.
  - intros i g. by apply _get_ngrams_lookup.
  - induction tokens as [|x tokens IH].
    + rewrite _get_ngrams_short by (unfold Py.len; simpl; lia).
      by rewrite take_nil.
    + destruct (Z_le_gt_dec n (Py.len (x :: tokens))) as [Hle|Hgt].
      * rewrite _get_ngrams_cons by done. unfold Py.len in *.
        simpl length in *.
        replace (Z.to_nat (Z.of_nat (S (length tokens)) - n + 1))
          with (S (Z.to_nat (Z.of_nat (length tokens) - n + 1))) by lia.
        cbn [take]. rewrite !fmap_cons, IH.
        f_equal. destruct (Z.to_nat n) eqn:E; [lia|done].
      * rewrite _get_ngrams_short by lia.
        replace (Z.to_nat (Py.len (x :: tokens) - n + 1)) with O by lia.
        done.
Qed.

Lemma _get_ngrams_shape_witness :
  let tokens := [Latin1.of_string "a"; Latin1.of_string "b";
                 Latin1.of_string "c"] in
  1 ≤ 2
  ∧ Py.len (_get_ngrams tokens 2) = 2
  ∧ Forall (fun g => Py.len g = 2) (_get_ngrams tokens 2).
Proof.
  intros tokens. split; [lia|].
  assert (H : 1 ≤ 2) by lia.
  split.
  - exact (proj1 (_get_ngrams_shape tokens 2 H)).
  - exact (proj1 (proj2 (_get_ngrams_shape tokens 2 H))).
Defined.

(** ** The two run counters *)

Section RunCounters.
Context `{EqDecision A}.
Implicit Types (g : A) (l : list A).

Lemma lead_le_occurrences g l : Z.of_nat (lead g l) ≤ occurrences g l.
Proof.
  induction l as [|y l IH]; simpl; [lia|].
  pose proof (occurrences_nonneg g l). case_decide; lia.
Qed.

Lemma longest_run_le_occurrences g l :
  Z.of_nat (longest_run g l) ≤ occurrences g l.
Proof.
  induction l as [|y l IH]; [simpl; lia|].
  pose proof (lead_le_occurrences g (y :: l)).
  assert (occurrences g l ≤ occurrences g (y :: l))
    by (simpl; case_decide; lia).
  cbn [longest_run]. lia.
Qed.

Lemma longest_run_any_le_length l : (longest_run_any l ≤ length l)%nat.
Proof.
  induction l as [|y l IH]; simpl; [done|].
  pose proof (lead_le_length y l). lia.
Qed.

Lemma longest_run_pos g l : g ∈ l ↔ (1 ≤ longest_run g l)%nat.
Proof.
  split.
  - intros Hg. apply list_elem_of_lookup in Hg as [i Hi].
    apply (longest_run_bound g l 1 i). unfold run_at.
    rewrite (drop_S _ _ _ Hi). done.
  - intros Hpos. destruct (longest_run_occurs g l) as [i Hi].
    unfold run_at in Hi.
    destruct (longest_run g l) as [|k]; [lia|].
    destruct (drop i l) as [|y r] eqn:E; [done|].
    simpl in Hi. injection Hi as -> _.
    apply list_elem_of_lookup. exists i.
    by rewrite <- (Nat.add_0_r i), <- lookup_drop, E.
Qed.

End RunCounters.

(** X6.  [_count_max_consecutive(ngrams, target)] is the length of the
    longest run of consecutive [target]s: that many occur in a row
    somewhere, and no more anywhere.  It is [0] exactly when [target] does
    not occur, and never exceeds the number of occurrences of [target]. *)
Theorem _count_max_consecutive_longest (ngrams : list ngram) (target : ngram) :
  let m := _count_max_consecutive ngrams target in
  0 ≤ m ≤ occurrences target ngrams
  ∧ occurrences target ngrams ≤ Py.len ngrams
  ∧ (∃ i, run_at target (Z.to_nat m) i ngrams)
  ∧ (∀ k i, run_at target k i ngrams → Z.of_nat k ≤ m)
  ∧ (m = 0 ↔ target ∉ ngrams).
Proof.
  intros m. unfold m. rewrite _count_max_consecutive_spec.
  pose proof (longest_run_le_occurrences target ngrams).
  split; [lia|]. split; [apply occurrences_le_len|]. split; [|split].
  - rewrite Nat2Z.id. apply longest_run_occurs.
  - intros k i Hrun. apply longest_run_bound in Hrun. lia.
  - rewrite longest_run_pos. lia.
Qed.

Lemma _count_max_consecutive_longest_witness :
  let bye : ngram := [Latin1.of_string "bye"] in
  let ngrams := [bye; [Latin1.of_string "so"]; bye; bye] in
  run_at bye 2 2 ngrams ∧ 2 ≤ _count_max_consecutive ngrams bye.
Proof.
  intros bye ngrams.
  assert (H : run_at bye 2 2 ngrams) by reflexivity.
  split; [exact H|].
  exact (proj1 (proj2 (proj2 (proj2
    (_count_max_consecutive_longest ngrams bye)))) 2%nat 2%nat H).
Defined.

(** X7.  [_count_max_consecutive_any(ngrams)] never raises, and returns the
    largest of the [_count_max_consecutive(ngrams, target)] over all
    targets: it bounds each of them and is reached by an element of the
    list.  It is [0] for the empty list only, and otherwise between [1] and
    the length of the list. *)
Theorem _count_max_consecutive_any_largest (ngrams : list ngram) :
  ∃ m : Z,
    _count_max_consecutive_any ngrams = Ok m
    ∧ (m = 0 ↔ ngrams = [])
    ∧ (ngrams ≠ [] → 1 ≤ m ≤ Py.len ngrams)
    ∧ (∀ target, _count_max_consecutive ngrams target ≤ m)
    ∧ (ngrams ≠ [] →
       ∃ target, target ∈ ngrams
                 ∧ _count_max_consecutive ngrams target = m).
Proof.
  exists (Z.of_nat (longest_run_any ngrams)).
  split; [apply _count_max_consecutive_any_spec|].
  pose proof (longest_run_any_le_length ngrams) as Hlen.
  assert (Hpos : ngrams ≠ [] → (1 ≤ longest_run_any ngrams)%nat).
  { destruct ngrams as [|g l]; [done|]. intros _. simpl. lia. }
  split; [|split; [|split]].
  - split; [|by intros ->].
    intros H0. destruct ngrams as [|g l]; [done|].
    specialize (Hpos ltac:(done)). lia.
  - intros Hne. specialize (Hpos Hne). unfold Py.len. lia.
  - intros target. rewrite _count_max_consecutive_spec.
    pose proof (longest_run_le_any target ngrams). lia.
  - intros Hne. destruct (longest_run_any_attained ngrams Hne)
      as (g & Hg & Hrun).
    exists g. split; [done|]. rewrite _count_max_consecutive_spec. lia.
Qed.

Lemma _count_max_consecutive_any_largest_witness :
  let bye : ngram := [Latin1.of_string "bye"] in
  let ngrams := [bye; [Latin1.of_string "so"]; bye; bye] in
  ngrams ≠ []
  ∧ ∃ m : Z, _count_max_consecutive_any ngrams = Ok m ∧ 1 ≤ m ≤ 4.
Proof.
  intros bye ngrams.
  assert (Hne : ngrams ≠ []) by discriminate.
  split; [exact Hne|].
  destruct (_count_max_consecutive_any_largest ngrams)
    as (m & Hm & _ & Hbounds & _).
  exists m. split; [exact Hm|]. exact (Hbounds Hne).
Defined.

(** ** The elongation score *)

Section Score.
Context `{DB : CharDB}.

Lemma elongated_total_le_length (rs : list (cp * nat)) :
  elongated_total rs
  ≤ Z.of_nat (length (flat_map (fun p => replicate p.2 p.1) rs)).
Proof.
  induction rs as [|[c k] rs IH]; [simpl; lia|].
  cbn [elongated_total flat_map]. rewrite length_app, length_replicate.
  simpl. destruct (_ && _); lia.
Qed.

Lemma elongation_score_le_len (text : str) :
  0 ≤ elongation_score text ≤ Py.len (lower text).
Proof.
  unfold elongation_score, Py.len. split; [apply elongated_total_nonneg|].
  rewrite <- (runs_expand (lower text)) at 2.
  apply elongated_total_le_length.
Qed.

(** Putting a code point in front of a text does not lower the total. *)
Lemma elongated_total_cons (c : cp) (s : str) :
  elongated_total (runs s) ≤ elongated_total (runs (c :: s)).
Proof.
  simpl runs. destruct (runs s) as [|[c' k] r]; [simpl; lia|].
  pose proof (elongated_total_nonneg r).
  destruct (decide (c = c')) as [->|Hne]; cbn [elongated_total].
  - destruct (isalnum c'); rewrite ?andb_true_r, ?andb_false_r; [|lia].
    destruct (Nat.leb_spec 3 k); destruct (Nat.leb_spec 3 (S k)); lia.
  - replace ((3 <=? 1)%nat && isalnum c) with false by done.
    destruct (_ && _); lia.
Qed.

Lemma elongated_total_of_triple (c : cp) (i : nat) (s : str) :
  isalnum c = true → run_at c 3 i s → 3 ≤ elongated_total (runs s).
Proof.
  intros Hc. revert s. induction i as [|i IH]; intros s Hrun.
  - unfold run_at in Hrun. rewrite drop_0 in Hrun.
    destruct s as [|x s]; [done|]. simpl in Hrun.
    injection Hrun as -> Hrun.
    apply (lead_ge c s 2) in Hrun.
    rewrite runs_cons. cbn [elongated_total]. rewrite Hc, andb_true_r.
    pose proof (elongated_total_nonneg (runs (drop (lead c s) s))).
    destruct (Nat.leb_spec 3 (S (lead c s))); lia.
  - destruct s as [|x s]; [done|].
    pose proof (elongated_total_cons x s).
    assert (3 ≤ elongated_total (runs s)); [|lia].
    apply IH. exact Hrun.
Qed.

Lemma triple_of_elongated_total (s : str) :
  0 < elongated_total (runs s) →
  ∃ c i, isalnum c = true ∧ run_at c 3 i s.
Proof.
  remember (length s) as n eqn:Hn. revert s Hn.
  induction n as [n IH] using lt_wf_ind. intros [|c s] Hn Hpos.
  - simpl in Hpos. lia.
  - rewrite runs_cons in Hpos. cbn [elongated_total] in Hpos.
    destruct ((3 <=? S (lead c s))%nat && isalnum c) eqn:Hhead.
    + apply andb_prop in Hhead as [Hk Hc]. apply Nat.leb_le in Hk.
      exists c, O. split; [done|]. unfold run_at. rewrite drop_0.
      simpl. f_equal.
      pose proof (lead_take c s) as Ht.
      apply (f_equal (take 2)) in Ht.
      rewrite take_take in Ht.
      replace (2 `min` lead c s)%nat with 2%nat in Ht by lia.
      rewrite Ht. destruct (lead c s) as [|[|k]]; [lia|lia|done].
    + pose proof (lead_le_length c s).
      destruct (IH (length (drop (lead c s) s))
                  ltac:(rewrite length_drop; subst n; simpl; lia)
                  (drop (lead c s) s) eq_refl ltac:(lia))
        as (c' & i & Hc' & Hrun).
      exists c', (S (lead c s + i)). split; [done|].
      unfold run_at in *. simpl. by rewrite <- drop_drop.
Qed.

End Score.

Lemma lower_length `{DB : CharDB} (s : str) :
  (∀ c, length (lower_char c) = 1%nat) → length (lower s) = length s.
Proof.
  intros H. unfold lower. generalize (@nil cp) as before.
  induction s as [|c s IH]; intros before; [done|].
  cbn [lower_from]. rewrite length_app, IH.
  destruct (decide (c = capital_sigma)); [done|]. by rewrite H.
Qed.

Lemma latin1_lower_length (s : str) :
  length (@lower Latin1.latin1 s) = length s.
Proof.
  apply lower_length. intros c.
  change (@lower_char Latin1.latin1 c) with (Latin1.lower_char c).
  unfold Latin1.lower_char. repeat case_match; done.
Qed.

(** X8.  The elongation score lies between [0] and the length of the
    lowercased text.  So the elongation check returns [False] whenever the
    lowercased translation has at most 40 code points, whatever the source;
    with the case mappings of [latin1], which keep the length, whenever the
    translation itself has at most 40. *)
Theorem elongation_needs_41 `{DB : CharDB} (translated source : str) :
  0 ≤ elongation_score translated ≤ Py.len (lower translated)
  ∧ (Py.len (lower translated) ≤ 40 →
     _has_excessive_elongation translated source = Ok false)
  ∧ (Py.len translated ≤ 40 →
     @_has_excessive_elongation Latin1.latin1 translated source = Ok false).
Proof.
  assert (Hgen : ∀ (D : CharDB) (t s : str),
    @Py.len cp (@lower D t) ≤ 40 →
    @_has_excessive_elongation D t s = Ok false).
  { intros D t s Hlen. rewrite _has_excessive_elongation_spec. f_equal.
    pose proof (@elongation_score_le_len D t).
    apply andb_false_intro1. rewrite Z.gtb_ltb. apply Z.ltb_ge. lia. }
  split; [apply elongation_score_le_len|]. split; [apply Hgen|].
  intros Hlen. apply Hgen. unfold Py.len in *.
  by rewrite latin1_lower_length.
Qed.

Lemma elongation_needs_41_witness :
  Py.len (Latin1.of_string "I'm sooo tired") ≤ 40
  ∧ @_has_excessive_elongation Latin1.latin1
      (Latin1.of_string "I'm sooo tired") (Latin1.of_string "Sono stanco")
    = Ok false.
Proof.
  assert (H : Py.len (Latin1.of_string "I'm sooo tired") ≤ 40)
    by (vm_compute; discriminate).
  split; [exact H|].
  exact (proj2 (proj2 (@elongation_needs_41 Latin1.latin1
    (Latin1.of_string "I'm sooo tired") (Latin1.of_string "Sono stanco")))
    H).
Defined.

(** X9.  The elongation score is positive exactly when the lowercased text
    holds three equal alphanumeric code points in a row, and it is then at
    least 3: a score is never 1 or 2.  So a text without such a triple is
    never flagged by the elongation check. *)
Theorem elongation_score_triple `{DB : CharDB} (text : str) :
  (0 < elongation_score text
   ↔ ∃ c i, isalnum c = true ∧ run_at c 3 i (lower text))
  ∧ (elongation_score text = 0 ∨ 3 ≤ elongation_score text)
  ∧ ((∀ c i, run_at c 3 i (lower text) → isalnum c = false) →
     ∀ source, _has_excessive_elongation text source = Ok false).
Proof.
  assert (Hiff : 0 < elongation_score text
                 ↔ ∃ c i, isalnum c = true ∧ run_at c 3 i (lower text)).
  { split.
    - apply triple_of_elongated_total.
    - intros (c & i & Hc & Hrun).
      pose proof (elongated_total_of_triple c i _ Hc Hrun).
      unfold elongation_score. lia. }
  pose proof (elongated_total_nonneg (runs (lower text))) as Hpos.
  fold (elongation_score text) in Hpos.
  split; [exact Hiff|]. split.
  - destruct (decide (elongation_score text = 0)) as [?|Hne]; [by left|].
    right. assert (H0 : 0 < elongation_score text) by lia.
    apply Hiff in H0 as (c & i & Hc & Hrun).
    apply (elongated_total_of_triple c i _ Hc Hrun).
  - intros Hno source. rewrite _has_excessive_elongation_spec. f_equal.
    apply andb_false_intro1. rewrite Z.gtb_ltb. apply Z.ltb_ge.
    destruct (decide (0 < elongation_score text)) as [H0|]; [|lia].
    apply Hiff in H0 as (c & i & Hc & Hrun).
    rewrite (Hno c i Hrun) in Hc. done.
Qed.

Lemma elongation_score_triple_witness :
  (∃ c i, @isalnum Latin1.latin1 c = true
          ∧ run_at c 3 i (@lower Latin1.latin1 (Latin1.of_string "sOoo")))
  ∧ 0 < @elongation_score Latin1.latin1 (Latin1.of_string "sOoo").
Proof.
  assert (H : ∃ c i, @isalnum Latin1.latin1 c = true
                ∧ run_at c 3 i
                    (@lower Latin1.latin1 (Latin1.of_string "sOoo"))).
  { exists 111%N, 1%nat. split; reflexivity. }
  split; [exact H|].
  exact (proj2 (proj1 (@elongation_score_triple Latin1.latin1
                         (Latin1.of_string "sOoo"))) H).
Defined.

(** ** What a size needs in order to fire *)

Lemma _get_ngrams_elem_len (tokens : list str) (n : Z) (g : ngram) :
  1 ≤ n → g ∈ _get_ngrams tokens n → Py.len g = n.
Proof.
  intros Hn Hg. apply list_elem_of_lookup in Hg as [i Hi].
  apply _get_ngrams_lookup in Hi as [Hle ->]; [|done].
  unfold Py.len in *. rewrite length_take, length_drop. lia.
Qed.

(** An n-gram does not occur more often than its first token. *)
Lemma occurrences_ngram_head (tokens : list str) (n : Z) (t0 : str)
    (rest : list str) :
  1 ≤ n →
  occurrences (t0 :: rest) (_get_ngrams tokens n) ≤ occurrences t0 tokens.
Proof.
  intros Hn. induction tokens as [|x tokens IH].
  - by rewrite _get_ngrams_short by (unfold Py.len; simpl; lia).
  - pose proof (occurrences_nonneg t0 tokens).
    destruct (Z_le_gt_dec n (Py.len (x :: tokens))) as [Hle|Hgt].
    + rewrite _get_ngrams_cons by done. cbn [occurrences].
      destruct (decide (take (Z.to_nat n) (x :: tokens) = t0 :: rest))
        as [Heq|Hne].
      * destruct (Z.to_nat n) eqn:E; [lia|]. simpl in Heq.
        injection Heq as -> _. rewrite decide_True by done. lia.
      * case_decide; lia.
    + rewrite _get_ngrams_short by lia. simpl. case_decide; lia.
Qed.

Lemma run_at_occurrences `{EqDecision A} (g : A) (k i : nat) (l : list A) :
  run_at g k i l → Z.of_nat k ≤ occurrences g l.
Proof.
  intros Hrun. apply longest_run_bound in Hrun.
  pose proof (longest_run_le_occurrences g l). lia.
Qed.

(** A check that fires has met an n-gram that occurs [min_repetitions]
    times. *)
Lemma ngram_flag_repeated (self : StammeringDetector)
    (translated_tokens source_tokens : list str) (n : Z) :
  1 ≤ min_repetitions self →
  ngram_flag self translated_tokens source_tokens n = true →
  ∃ g, g ∈ _get_ngrams translated_tokens n
       ∧ min_repetitions self ≤ occurrences g (_get_ngrams translated_tokens n).
Proof.
  intros Hm Hflag. unfold ngram_flag in Hflag.
  apply orb_true_iff in Hflag as [Hf|Hc].
  - apply frequency_flag_iff in Hf as (g & Hg & Hmin & _). by exists g.
  - apply consecutive_flag_iff in Hc as (g & i & Hrun & _); [|done].
    apply run_at_occurrences in Hrun.
    exists g. split; [|lia]. apply occurrences_pos. lia.
Qed.

Lemma ngram_flag_repeated_token (self : StammeringDetector)
    (translated_tokens source_tokens : list str) (n : Z) :
  1 ≤ min_repetitions self → 1 ≤ n →
  ngram_flag self translated_tokens source_tokens n = true →
  ∃ tok, tok ∈ translated_tokens
         ∧ min_repetitions self ≤ occurrences tok translated_tokens.
Proof.
  intros Hm Hn Hflag.
  destruct (ngram_flag_repeated _ _ _ _ Hm Hflag) as (g & Hg & Hocc).
  pose proof (_get_ngrams_elem_len _ _ _ Hn Hg) as Hlen.
  destruct g as [|t0 rest]; [unfold Py.len in Hlen; simpl in Hlen; lia|].
  pose proof (occurrences_ngram_head translated_tokens n t0 rest Hn) as Hhd.
  assert (Hle : min_repetitions self ≤ occurrences t0 translated_tokens)
    by (eapply Z.le_trans; [exact Hocc|exact Hhd]).
  exists t0. split; [|done]. apply occurrences_pos. lia.
Qed.

Lemma elem_of_ngram_sizes_ge (self : StammeringDetector) (tokens : list str)
    (n : Z) :
  n ∈ ngram_sizes self tokens → 1 ≤ n.
Proof.
  unfold ngram_sizes, Py.range. rewrite elem_of_seqZ. lia.
Qed.

(** X10.  The phrase-repetition stage fires only if some translated token
    occurs at least [min_repetitions] times: when no token does, and so
    when there are fewer tokens than that, the stage returns [False]
    whatever the source. *)
Theorem phrase_repetition_needs_repeat `{DB : CharDB}
    (self : StammeringDetector) (translated source : str) :
  1 ≤ min_repetitions self →
  (_has_phrase_repetition self translated source = Ok true →
   ∃ tok, tok ∈ _tokenize translated
          ∧ min_repetitions self ≤ occurrences tok (_tokenize translated))
  ∧ ((∀ tok, occurrences tok (_tokenize translated) < min_repetitions self) →
     _has_phrase_repetition self translated source = Ok false)
  ∧ (Py.len (_tokenize translated) < min_repetitions self →
     _has_phrase_repetition self translated source = Ok false).
Proof.
  intros Hm.
  assert (Hpos : _has_phrase_repetition self translated source = Ok true →
    ∃ tok, tok ∈ _tokenize translated
           ∧ min_repetitions self ≤ occurrences tok (_tokenize translated)).
  { rewrite _has_phrase_repetition_total. intros [= H].
    apply existsb_elem_of in H as (n & Hn & Hflag).
    apply elem_of_ngram_sizes_ge in Hn.
    by apply (ngram_flag_repeated_token self _ (_tokenize source) n). }
  assert (Hneg :
    (∀ tok, occurrences tok (_tokenize translated) < min_repetitions self) →
    _has_phrase_repetition self translated source = Ok false).
  { intros Hnone.
    destruct (_has_phrase_repetition self translated source)
      as [[|]|e] eqn:E; [|done|].
    - destruct (Hpos eq_refl) as (tok & _ & Hocc).
      specialize (Hnone tok). lia.
    - by rewrite _has_phrase_repetition_total in E. }
  split; [exact Hpos|]. split; [exact Hneg|].
  intros Hlen. apply Hneg. intros tok.
  pose proof (occurrences_le_len tok (_tokenize translated)). lia.
Qed.

Lemma phrase_repetition_needs_repeat_witness :
  1 ≤ min_repetitions detector
  ∧ Py.len (@_tokenize Latin1.latin1 (Latin1.of_string "bye bye")) < 3
  ∧ @_has_phrase_repetition Latin1.latin1 detector
      (Latin1.of_string "bye bye") (Latin1.of_string "ciao") = Ok false.
Proof.
  assert (H1 : 1 ≤ min_repetitions detector) by (vm_compute; discriminate).
  assert (H2 : Py.len (@_tokenize Latin1.latin1 (Latin1.of_string "bye bye"))
               < min_repetitions detector) by (vm_compute; reflexivity).
  split; [exact H1|]. split; [exact H2|].
  exact (proj2 (proj2 (@phrase_repetition_needs_repeat Latin1.latin1 detector
    (Latin1.of_string "bye bye") (Latin1.of_string "ciao") H1)) H2).
Defined.

(** X11.  The check at a size [n] fires only if the translation has at
    least [n + min_repetitions - 1] tokens, since it needs that many
    n-grams.  For the detector of [detect_stammering] the sizes that can
    fire are thus [1..min(5, t - 2)], [t] being the number of translated
    tokens: the last size of the loop, [t - 1], never fires when
    [t ≤ 6]. *)
Theorem ngram_size_needs_tokens `{DB : CharDB} (self : StammeringDetector)
    (source translated : str) (n : Z) :
  1 ≤ min_repetitions self →
  let translated_tokens := _tokenize translated in
  let source_tokens := _tokenize source in
  (_has_ngram_repetition self translated_tokens source_tokens n = Ok true →
   n + min_repetitions self - 1 ≤ Py.len translated_tokens)
  ∧ (detect_stammering source translated = Ok true
     ↔ _has_excessive_elongation translated source = Ok true
       ∨ ∃ k, 1 ≤ k ≤ Z.min 5 (Py.len translated_tokens - 2)
              ∧ _has_ngram_repetition detector translated_tokens
                  source_tokens k = Ok true).
Proof.
  intros Hm tt st.
  assert (Hneed : ∀ (d : StammeringDetector) (k : Z),
    1 ≤ min_repetitions d →
    _has_ngram_repetition d tt st k = Ok true →
    k + min_repetitions d - 1 ≤ Py.len tt).
  { intros d k Hd. rewrite _has_ngram_repetition_total. intros [= Hflag].
    fold (ngram_flag d tt st k) in Hflag.
    destruct (ngram_flag_repeated d tt st k Hd Hflag) as (g & _ & Hocc).
    pose proof (occurrences_le_len g (_get_ngrams tt k)).
    pose proof (len_get_ngrams tt k). lia. }
  split; [by apply Hneed|].
  unfold detect_stammering.
  rewrite detect_iff, _has_phrase_repetition_iff. fold tt st.
  split.
  - intros [He|(k & Hk & Hrep)]; [by left|right].
    exists k. split; [|done]. apply elem_of_ngram_sizes in Hk.
    specialize (Hneed detector k ltac:(done) Hrep). simpl in Hneed. lia.
  - intros [He|(k & Hk & Hrep)]; [by left|right].
    exists k. split; [|done]. apply elem_of_ngram_sizes. lia.
Qed.

Lemma ngram_size_needs_tokens_witness :
  let source := Latin1.of_string "ciao" in
  let translated := Latin1.of_string "bye bye bye" in
  1 ≤ min_repetitions detector
  ∧ _has_ngram_repetition detector (@_tokenize Latin1.latin1 translated)
      (@_tokenize Latin1.latin1 source) 1 = Ok true
  ∧ 1 + min_repetitions detector - 1
    ≤ Py.len (@_tokenize Latin1.latin1 translated).
Proof.
  intros source translated.
  assert (H1 : 1 ≤ min_repetitions detector) by (vm_compute; discriminate).
  assert (H2 : _has_ngram_repetition detector
                 (@_tokenize Latin1.latin1 translated)
                 (@_tokenize Latin1.latin1 source) 1 = Ok true)
    by (vm_compute; reflexivity).
  split; [exact H1|]. split; [exact H2|].
  exact (proj1 (@ngram_size_needs_tokens Latin1.latin1 detector source
                  translated 1 H1) H2).
Defined.

(** X12.  [detect_stammering] returns [False] for a translation whose
    lowercased text has at most 40 code points and in which no token occurs
    three times; in particular for the empty translation, and for one of at
    most 40 code points and at most two tokens. *)
Theorem detect_short_translation `{DB : CharDB} (source translated : str) :
  (Py.len (lower translated) ≤ 40 →
   (∀ tok, occurrences tok (_tokenize translated) < 3) →
   detect_stammering source translated = Ok false)
  ∧ (Py.len (lower translated) ≤ 40 →
     Py.len (_tokenize translated) ≤ 2 →
     detect_stammering source translated = Ok false)
  ∧ detect_stammering source [] = Ok false.
Proof.
  assert (Hgen : ∀ t : str,
    Py.len (lower t) ≤ 40 →
    (∀ tok, occurrences tok (_tokenize t) < 3) →
    detect_stammering source t = Ok false).
  { intros t Hlen Hnone. unfold detect_stammering, detect.
    rewrite _has_excessive_elongation_spec, bind_Ok.
    pose proof (elongation_score_le_len t).
    replace (elongation_score t >? 40) with false
      by (symmetry; rewrite Z.gtb_ltb; apply Z.ltb_ge; lia).
    simpl andb. cbv iota.
    assert (Hrep : _has_phrase_repetition detector t source = Ok false).
    { destruct (_has_phrase_repetition detector t source)
        as [[|]|e] eqn:E; [|done|].
      - apply _has_phrase_repetition_iff in E as (n & Hn & Hflag).
        rewrite _has_ngram_repetition_total in Hflag.
        injection Hflag as Hflag.
        apply elem_of_ngram_sizes_ge in Hn.
        destruct (ngram_flag_repeated_token detector _ _ n
                    ltac:(done) Hn Hflag) as (tok & _ & Hocc).
        specialize (Hnone tok). simpl in Hocc. lia.
      - by rewrite _has_phrase_repetition_total in E. }
    by rewrite Hrep. }
  split; [apply Hgen|]. split.
  - intros Hlen Htok. apply Hgen; [done|]. intros tok.
    pose proof (occurrences_le_len tok (_tokenize translated)). lia.
  - apply Hgen; [done|]. intros tok. done.
Qed.

Lemma detect_short_translation_witness :
  let source := Latin1.of_string "ciao ciao" in
  let translated := Latin1.of_string "bye bye" in
  Py.len (@lower Latin1.latin1 translated) ≤ 40
  ∧ Py.len (@_tokenize Latin1.latin1 translated) ≤ 2
  ∧ @detect_stammering Latin1.latin1 source translated = Ok false.
Proof.
  intros source translated.
  assert (H1 : Py.len (@lower Latin1.latin1 translated) ≤ 40)
    by (vm_compute; discriminate).
  assert (H2 : Py.len (@_tokenize Latin1.latin1 translated) ≤ 2)
    by (vm_compute; discriminate).
  split; [exact H1|]. split; [exact H2|].
  exact (proj1 (proj2 (@detect_short_translation Latin1.latin1 source
                         translated)) H1 H2).
Defined.

(** ** The source side *)

Lemma _get_ngrams_1 (tokens : list str) :
  _get_ngrams tokens 1 = (fun t => [t]) <$> tokens.
Proof.
  induction tokens as [|x tokens IH].
  - by rewrite _get_ngrams_short by (unfold Py.len; simpl; lia).
  - rewrite _get_ngrams_cons by (unfold Py.len; simpl length; lia).
    by rewrite IH.
Qed.

Lemma occurrences_unigram (tok : str) (tokens : list str) :
  occurrences [tok] (_get_ngrams tokens 1) = occurrences tok tokens.
Proof.
  rewrite _get_ngrams_1. induction tokens as [|x tokens IH]; [done|].
  cbn [fmap list_fmap occurrences]. rewrite <- IH.
  destruct (decide (x = tok)) as [->|Hne].
  - by rewrite decide_True.
  - rewrite decide_False; [done|]. by intros [= ?].
Qed.

Lemma occurrences_NoDup `{EqDecision K} (x : K) (l : list K) :
  NoDup l → occurrences x l ≤ 1.
Proof.
  induction 1 as [|y l Hy _ IH]; simpl; [lia|].
  case_decide; [subst|lia].
  rewrite occurrences_pos in Hy. lia.
Qed.

Lemma max_frequency_le `{EqDecision K} (l : list K) (b : Z) :
  0 ≤ b → (∀ g, occurrences g l ≤ b) → max_frequency l ≤ b.
Proof.
  intros Hb Hall. destruct (max_frequency_spec l) as [_ Hatt].
  destruct l as [|x l]; [done|].
  destruct Hatt as (g & _ & <-); [done|]. apply Hall.
Qed.

Lemma max_frequency_app `{EqDecision K} (l l' : list K) :
  max_frequency l ≤ max_frequency (l ++ l').
Proof.
  destruct (max_frequency_spec l) as [_ Hatt].
  destruct (max_frequency_spec (l ++ l')) as [Hub _].
  destruct l as [|x l]; [apply max_frequency_nonneg|].
  destruct Hatt as (g & _ & <-); [done|].
  specialize (Hub g). rewrite occurrences_app in Hub.
  pose proof (occurrences_nonneg g l'). lia.
Qed.

Lemma longest_run_any_app `{EqDecision A} (l l' : list A) :
  (longest_run_any l ≤ longest_run_any (l ++ l'))%nat.
Proof.
  destruct l as [|x l]; [simpl; lia|].
  destruct (longest_run_any_attained (x :: l)) as (g & _ & <-); [done|].
  pose proof (longest_run_app g (x :: l) l').
  pose proof (longest_run_le_any g ((x :: l) ++ l')). lia.
Qed.

(** With no repeated source token, no source n-gram is repeated. *)
Lemma max_frequency_NoDup (source_tokens : list str) (n : Z) :
  1 ≤ n → NoDup source_tokens →
  max_frequency (_get_ngrams source_tokens n) ≤ 1.
Proof.
  intros Hn Hnd. apply max_frequency_le; [lia|]. intros g.
  destruct (decide (g ∈ _get_ngrams source_tokens n)) as [Hg|Hg].
  - pose proof (_get_ngrams_elem_len _ _ _ Hn Hg) as Hlen.
    destruct g as [|t0 rest]; [unfold Py.len in Hlen; simpl in Hlen; lia|].
    eapply Z.le_trans; [by apply occurrences_ngram_head|].
    by apply occurrences_NoDup.
  - rewrite occurrences_pos in Hg.
    pose proof (occurrences_nonneg g (_get_ngrams source_tokens n)). lia.
Qed.

(** A size that fires against a source still fires against a shorter
    one. *)
Lemma ngram_flag_source_app (self : StammeringDetector)
    (translated_tokens source_tokens extra : list str) (n : Z) :
  1 ≤ min_repetitions self → 1 ≤ n →
  ngram_flag self translated_tokens (source_tokens ++ extra) n = true →
  ngram_flag self translated_tokens source_tokens n = true.
Proof.
  intros Hm Hn. unfold ngram_flag.
  destruct (_get_ngrams_app source_tokens extra n Hn) as [more ->].
  rewrite !orb_true_iff, !frequency_flag_iff, !consecutive_flag_iff by done.
  pose proof (max_frequency_app (_get_ngrams source_tokens n) more).
  pose proof (longest_run_any_app (_get_ngrams source_tokens n) more).
  intros [(g & Hg & Hmin & Hgt)|(g & i & Hrun & Hcond)]; [left|right].
  - exists g. split; [done|]. lia.
  - exists g, i. split; [done|]. lia.
Qed.

(** X13.  When no token occurs twice in the source (an empty source
    included), [detect_stammering] returns [True] exactly when the
    elongation check fires or some translated token occurs three times or
    more, in a row or not. *)
Theorem detect_unrepeated_source `{DB : CharDB} (source translated : str) :
  NoDup (_tokenize source) →
  detect_stammering source translated = Ok true
  ↔ _has_excessive_elongation translated source = Ok true
    ∨ ∃ tok, 3 ≤ occurrences tok (_tokenize translated).
Proof.
  intros Hnd. unfold detect_stammering.
  rewrite detect_iff, _has_phrase_repetition_iff.
  split; (intros [He|Hrep]; [by left|right]).
  - destruct Hrep as (n & Hn & Hflag).
    rewrite _has_ngram_repetition_total in Hflag. injection Hflag as Hflag.
    apply elem_of_ngram_sizes_ge in Hn.
    destruct (ngram_flag_repeated_token detector _ _ n ltac:(done) Hn Hflag)
      as (tok & _ & Hocc).
    by exists tok.
  - destruct Hrep as (tok & Hocc).
    pose proof (occurrences_le_len tok (_tokenize translated)).
    exists 1. split; [apply elem_of_ngram_sizes; lia|].
    rewrite _has_ngram_repetition_total. f_equal.
    apply orb_true_iff. left. apply frequency_flag_iff.
    exists [tok]. rewrite occurrences_unigram.
    pose proof (max_frequency_NoDup (_tokenize source) 1 ltac:(lia) Hnd).
    split; [|simpl; lia].
    apply occurrences_pos. rewrite occurrences_unigram. lia.
Qed.

Lemma detect_unrepeated_source_witness :
  let source := Latin1.of_string "Dove si trova la stazione?" in
  let translated := Latin1.of_string "the station is the station by the sea" in
  NoDup (@_tokenize Latin1.latin1 source)
  ∧ 3 ≤ occurrences (Latin1.of_string "the")
          (@_tokenize Latin1.latin1 translated)
  ∧ @detect_stammering Latin1.latin1 source translated = Ok true.
Proof.
  intros source translated.
  assert (Hnd : NoDup (@_tokenize Latin1.latin1 source)).
  { apply (bool_decide_unpack _). vm_compute. exact I. }
  assert (Hocc : 3 ≤ occurrences (Latin1.of_string "the")
                       (@_tokenize Latin1.latin1 translated))
    by (vm_compute; discriminate).
  split; [exact Hnd|]. split; [exact Hocc|].
  apply (proj2 (@detect_unrepeated_source Latin1.latin1 source translated
                  Hnd)).
  right. exists (Latin1.of_string "the"). exact Hocc.
Defined.

(** X14.  Adding text to the source, after a space, never turns an
    unflagged translation into a flagged one: a translation flagged against
    the longer source is flagged against the shorter one. *)
Theorem detect_antitone_source `{DB : CharDB} (self : StammeringDetector)
    (source more translated : str) :
  1 ≤ min_repetitions self →
  detect self (source ++ space :: more) translated = Ok true →
  detect self source translated = Ok true.
Proof.
  intros Hm. rewrite !detect_total. intros [= H]. f_equal.
  apply orb_true_iff in H as [H|H]; apply orb_true_iff; [left|right].
  - pose proof (elongation_score_app_space source more).
    apply andb_prop in H as [H1 H2]. apply andb_true_intro. split; lia.
  - apply existsb_elem_of in H as (n & Hn & Hflag).
    rewrite (_tokenize_app _ _ _ isspace_space) in Hflag.
    apply existsb_elem_of. exists n. split; [done|].
    apply elem_of_ngram_sizes_ge in Hn.
    by apply (ngram_flag_source_app self _ _ (_tokenize more) n).
Qed.

Lemma detect_antitone_source_witness :
  let source := Latin1.of_string "ciao ciao" in
  let more := Latin1.of_string "amico" in
  let translated := Latin1.of_string "bye bye bye my friend" in
  1 ≤ min_repetitions detector
  ∧ @detect Latin1.latin1 detector (source ++ space :: more) translated
    = Ok true
  ∧ @detect Latin1.latin1 detector source translated = Ok true.
Proof.
  intros source more translated.
  assert (H1 : 1 ≤ min_repetitions detector) by (vm_compute; discriminate).
  assert (H2 : @detect Latin1.latin1 detector (source ++ space :: more)
                 translated = Ok true) by (vm_compute; reflexivity).
  split; [exact H1|]. split; [exact H2|].
  exact (@detect_antitone_source Latin1.latin1 detector source more
           translated H1 H2).
Defined.

(** ** The request handler and the test script *)

Lemma len_lt_1 {A} (l : list A) : (Py.len l <? 1) = true ↔ l = [].
Proof.
  unfold Py.len. destruct l; simpl; [done|].
  split; [|done]. intros H. apply Z.ltb_lt in H. lia.
Qed.

(** X15.  [detect_stammering_endpoint] answers with status 400 exactly when
    one of the two sentences is empty; otherwise it answers with the
    verdict of [detect_stammering] as [has_stammer].  It never answers with
    status 500, its second [except] clause being out of reach. *)
Theorem endpoint_replies `{DB : CharDB} (source translated : str) :
  (Main.detect_stammering_endpoint source translated = Main.HTTPException 400
   ↔ source = [] ∨ translated = [])
  ∧ (source ≠ [] → translated ≠ [] →
     ∃ b : bool,
       detect_stammering source translated = Ok b
       ∧ Main.detect_stammering_endpoint source translated
         = Main.Response {| Main.has_stammer := b |})
  ∧ (∀ code, Main.detect_stammering_endpoint source translated
             = Main.HTTPException code → code = 400).
Proof.
  unfold Main.detect_stammering_endpoint, Main.new_StammeringRequest.
  destruct (Py.len source <? 1) eqn:Hs.
  { apply len_lt_1 in Hs as ->. simpl.
    split; [split; [by left|done]|]. split; [done|].
    by intros code [= <-]. }
  destruct (Py.len translated <? 1) eqn:Ht.
  { apply len_lt_1 in Ht as ->. simpl.
    split; [split; [by right|done]|]. split; [done|].
    by intros code [= <-]. }
  assert (Hs' : source ≠ []) by (intros ->; done).
  assert (Ht' : translated ≠ []) by (intros ->; done).
  simpl orb. cbv iota. rewrite bind_Ok. simpl.
  unfold detect_stammering. rewrite detect_total, bind_Ok.
  split; [split; [done|by intros [?|?]]|].
  split; [|done]. intros _ _. by eexists.
Qed.

Lemma endpoint_replies_witness :
  let source := Latin1.of_string "ciao ciao" in
  let translated := Latin1.of_string "bye bye bye bye" in
  source ≠ [] ∧ translated ≠ []
  ∧ ∃ b : bool,
      @Main.detect_stammering_endpoint Latin1.latin1 source translated
      = Main.Response {| Main.has_stammer := b |}.
Proof.
  intros source translated.
  assert (H1 : source ≠ []) by discriminate.
  assert (H2 : translated ≠ []) by discriminate.
  split; [exact H1|]. split; [exact H2|].
  destruct (proj1 (proj2 (@endpoint_replies Latin1.latin1 source
                            translated)) H1 H2) as (b & _ & Hb).
  exists b. exact Hb.
Defined.

(** X16.  On the twelve cases of the test script, every reply has status
    200 and the expected verdict: the script counts 12 passed and 0
    failed. *)
Theorem test_script_passes :
  Tests.run 0 0 Tests.test_cases = (12, 0)
  ∧ Forall
      (fun test =>
         @Main.detect_stammering_endpoint Latin1.latin1 (Tests.source test)
           (Tests.translated test)
         = Main.Response {| Main.has_stammer := Tests.expected test |})
      Tests.test_cases.
Proof.
  split; [vm_compute; reflexivity|].
  repeat (constructor; [vm_compute; reflexivity|]). constructor.
Qed.
